(** * Per-connection engine of [coms]: read worker, write worker, [Call]

    A shallow embedding of [src/client.go].  The file holds two listings of
    [client.go]; they differ in a handful of branches of [readLoop] and
    [writeLoop], so one model covers both and a [Revision] flag selects the
    listing at exactly those branches.

    Goroutines are program-counter machines.  One [Event] is one atomic
    action of one goroutine (or one rendezvous on an unbuffered channel), and
    a schedule is a list of events, so every interleaving of the workers, of
    the callers and of the ping callback is a trace of [run]. *)

From Stdlib Require Import ZArith Strings.Byte.
From stdpp Require Import base option list gmap strings pretty.

Local Open Scope Z_scope.

(** ** Data *)

Definition bytes := list byte.

(** [int32(x)]: conversion to a signed 32-bit integer, and the arithmetic of
    [atomic.Int32], wrap around. *)
Definition int32 (z : Z) : Z := (z + 2 ^ 31) mod 2 ^ 32 - 2 ^ 31.

Inductive Revision :=
| Rev1   (* first listing, lines 1-250 *)
| Rev2.  (* second listing, lines 251-496 *)

(** Modelled from the spec: the declarations of package [protocol]
    ([Message], its type constants [Req]/[Resp], [TimeOutConfig]) are not in
    the source; section 3 and section 6 of the specification give the
    envelope as id, type (request or response), action and opaque payload. *)
Inductive MessageType := Req | Resp.

Record Message := {
  Id : string;
  Typ : MessageType;
  Action : string;
  Data : bytes
}.

Record TimeOutConfig := {
  PingPeriod : Z;
  PingWait : Z;
  ReadWait : Z
}.

(** Result of [protocol.ToMessage(msg)]: an error, or a possibly nil
    [*Message]. *)
Inductive ToMessageResult :=
| ToMessage_err
| ToMessage_ok (message : option Message).

(** A handler [h(c, message)] returns [*[]byte], nil on failure.  What it
    may do to the client it is handed is not modelled. *)
Definition Handler := Message → option bytes.

(** What [client.go] imports and does not define.  [uuid_NewString n] is the
    [n]-th string handed out by [uuid.NewString()]. *)
Class Deps := {
  any : Type;
  json_Marshal : any → option bytes;
  Message_ToBytes : Message → option bytes;
  protocol_ToMessage : bytes → ToMessageResult;
  getHandler : string → option Handler;
  uuid_NewString : nat → string
}.

(** Frames handed to the transport. *)
Inductive Frame :=
| TextMessage (msg : bytes)
| PongMessage (data : bytes)
| CloseMessage (code : Z) (text : string).

Definition CloseNormalClosure : Z := 1000.

(** ** Program counters *)

(** [readLoop]: the points where the goroutine can be suspended. *)
Inductive ReadLoopPc :=
| RL_ReadMessage                              (* c.conn.ReadMessage() *)
| RL_closeCh_send                             (* c.closeCh <- true, then return/break *)
| RL_callCh_send (callCh : nat) (message : Message)   (* callCh <- message *)
| RL_messageOut_send (msgOut : bytes)         (* c.messageOut <- msgOut *)
| RL_deferred                                 (* defer s.Remove(c.id) *)
| RL_exited.

Inductive WriteLoopPc :=
| WL_select                                   (* select { ... } *)
| WL_write (msg : bytes)                      (* NextWriter, Write(, Close) *)
| WL_pong                                     (* WriteMessage(PongMessage, {}) *)
| WL_closeFrame                               (* WriteMessage(CloseMessage, cm) *)
| WL_closeCh_send                             (* c.closeCh <- true, then return *)
| WL_deferred                                 (* defer s.Remove(c.id) *)
| WL_exited.

Inductive CallError :=
| ErrMaxPending    (* errors.New("max pending calls exceeded") *)
| ErrMarshal       (* err of json.Marshal *)
| ErrToBytes       (* err of req.ToBytes *)
| ErrTimeout.      (* errors.New("timeout") *)

(** [(resp, nil)] is [inl resp]; [(nil, err)] is [inr err]. *)
Definition CallResult := (Message + CallError)%type.

(** The ping callback installed by [makeClient]. *)
Inductive PingPc :=
| PH_pingCh_send (appData : string)           (* cli.pingCh <- []byte(appData) *)
| PH_SetWriteDeadline
| PH_returned.

Section Engine.

Context `{D : Deps}.

(** One invocation of [Call]: its program counter and its local variables
    ([req], the reference [respCh] to the channel it made, the values it is
    about to return while the deferred function runs). *)
Inductive CallPc :=
| C_entry (action : string) (data : any)    (* c.pendingCnt.Load() >= ... *)
| C_Store (req : Message) (respCh : nat)      (* c.pendingCalls.Store(req.Id, respCh) *)
| C_Add (req : Message) (respCh : nat)        (* c.pendingCnt.Add(1); req.ToBytes() *)
| C_messageOut_send (req : Message) (respCh : nat) (msgBytes : bytes)
| C_select (req : Message) (respCh : nat)     (* select { <-respCh; <-time.After } *)
| C_defer_Delete (req : Message) (respCh : nat) (ret : CallResult)
| C_defer_Add (req : Message) (respCh : nat) (ret : CallResult)
| C_returned_early (ret : CallResult)         (* returned before the Store *)
| C_returned (req : Message) (respCh : nat) (ret : CallResult).


(** ** State

    The fields of [Client] that the three functions use, the channels made by
    [Call] (a channel value is a reference: an index into [chans]), the
    goroutines, and the collaborators as far as the code drives them: the
    writes issued on [conn], the calls of [s.Remove], the strings already
    handed out by [uuid.NewString].  [messageOut] and [pingCh] are unbuffered
    and hold nothing: a send on them is a rendezvous with the [select] of
    [writeLoop]. *)
Record State := {
  c_id : string;
  timeout : TimeOutConfig;
  closeCh : list bool;                  (* make(chan bool, 1) *)
  pendingCalls : gmap string nat;       (* sync.Map *)
  pendingCnt : Z;                       (* atomic.Int32 *)
  maxPendingCalls : Z;                  (* int *)
  chans : list (list Message);          (* every make(chan *protocol.Message, 1) *)
  rl : ReadLoopPc;
  wl : WriteLoopPc;
  calls : list CallPc;
  pings : list PingPc;
  conn_writes : list (Frame * bool);    (* frame and whether the write succeeded *)
  conn_writeDeadline : Z;
  netConn_closed : bool;
  removed : list string;                (* arguments of s.Remove, oldest first *)
  uuid_next : nat
}.

Definition set_closeCh (v : list bool) (s : State) : State :=
  {| c_id := c_id s; timeout := timeout s; closeCh := v;
     pendingCalls := pendingCalls s; pendingCnt := pendingCnt s;
     maxPendingCalls := maxPendingCalls s; chans := chans s; rl := rl s;
     wl := wl s; calls := calls s; pings := pings s;
     conn_writes := conn_writes s;
     conn_writeDeadline := conn_writeDeadline s;
     netConn_closed := netConn_closed s; removed := removed s;
     uuid_next := uuid_next s |}.
Definition set_pendingCalls (v : gmap string nat) (s : State) : State :=
  {| c_id := c_id s; timeout := timeout s; closeCh := closeCh s;
     pendingCalls := v; pendingCnt := pendingCnt s;
     maxPendingCalls := maxPendingCalls s; chans := chans s; rl := rl s;
     wl := wl s; calls := calls s; pings := pings s;
     conn_writes := conn_writes s;
     conn_writeDeadline := conn_writeDeadline s;
     netConn_closed := netConn_closed s; removed := removed s;
     uuid_next := uuid_next s |}.
Definition set_pendingCnt (v : Z) (s : State) : State :=
  {| c_id := c_id s; timeout := timeout s; closeCh := closeCh s;
     pendingCalls := pendingCalls s; pendingCnt := v;
     maxPendingCalls := maxPendingCalls s; chans := chans s; rl := rl s;
     wl := wl s; calls := calls s; pings := pings s;
     conn_writes := conn_writes s;
     conn_writeDeadline := conn_writeDeadline s;
     netConn_closed := netConn_closed s; removed := removed s;
     uuid_next := uuid_next s |}.
Definition set_chans (v : list (list Message)) (s : State) : State :=
  {| c_id := c_id s; timeout := timeout s; closeCh := closeCh s;
     pendingCalls := pendingCalls s; pendingCnt := pendingCnt s;
     maxPendingCalls := maxPendingCalls s; chans := v; rl := rl s;
     wl := wl s; calls := calls s; pings := pings s;
     conn_writes := conn_writes s;
     conn_writeDeadline := conn_writeDeadline s;
     netConn_closed := netConn_closed s; removed := removed s;
     uuid_next := uuid_next s |}.
Definition set_rl (v : ReadLoopPc) (s : State) : State :=
  {| c_id := c_id s; timeout := timeout s; closeCh := closeCh s;
     pendingCalls := pendingCalls s; pendingCnt := pendingCnt s;
     maxPendingCalls := maxPendingCalls s; chans := chans s; rl := v;
     wl := wl s; calls := calls s; pings := pings s;
     conn_writes := conn_writes s;
     conn_writeDeadline := conn_writeDeadline s;
     netConn_closed := netConn_closed s; removed := removed s;
     uuid_next := uuid_next s |}.
Definition set_wl (v : WriteLoopPc) (s : State) : State :=
  {| c_id := c_id s; timeout := timeout s; closeCh := closeCh s;
     pendingCalls := pendingCalls s; pendingCnt := pendingCnt s;
     maxPendingCalls := maxPendingCalls s; chans := chans s; rl := rl s;
     wl := v; calls := calls s; pings := pings s;
     conn_writes := conn_writes s;
     conn_writeDeadline := conn_writeDeadline s;
     netConn_closed := netConn_closed s; removed := removed s;
     uuid_next := uuid_next s |}.
Definition set_calls (v : list CallPc) (s : State) : State :=
  {| c_id := c_id s; timeout := timeout s; closeCh := closeCh s;
     pendingCalls := pendingCalls s; pendingCnt := pendingCnt s;
     maxPendingCalls := maxPendingCalls s; chans := chans s; rl := rl s;
     wl := wl s; calls := v; pings := pings s; conn_writes := conn_writes s;
     conn_writeDeadline := conn_writeDeadline s;
     netConn_closed := netConn_closed s; removed := removed s;
     uuid_next := uuid_next s |}.
Definition set_pings (v : list PingPc) (s : State) : State :=
  {| c_id := c_id s; timeout := timeout s; closeCh := closeCh s;
     pendingCalls := pendingCalls s; pendingCnt := pendingCnt s;
     maxPendingCalls := maxPendingCalls s; chans := chans s; rl := rl s;
     wl := wl s; calls := calls s; pings := v; conn_writes := conn_writes s;
     conn_writeDeadline := conn_writeDeadline s;
     netConn_closed := netConn_closed s; removed := removed s;
     uuid_next := uuid_next s |}.
Definition set_conn_writes (v : list (Frame * bool)) (s : State) : State :=
  {| c_id := c_id s; timeout := timeout s; closeCh := closeCh s;
     pendingCalls := pendingCalls s; pendingCnt := pendingCnt s;
     maxPendingCalls := maxPendingCalls s; chans := chans s; rl := rl s;
     wl := wl s; calls := calls s; pings := pings s; conn_writes := v;
     conn_writeDeadline := conn_writeDeadline s;
     netConn_closed := netConn_closed s; removed := removed s;
     uuid_next := uuid_next s |}.
Definition set_conn_writeDeadline (v : Z) (s : State) : State :=
  {| c_id := c_id s; timeout := timeout s; closeCh := closeCh s;
     pendingCalls := pendingCalls s; pendingCnt := pendingCnt s;
     maxPendingCalls := maxPendingCalls s; chans := chans s; rl := rl s;
     wl := wl s; calls := calls s; pings := pings s;
     conn_writes := conn_writes s; conn_writeDeadline := v;
     netConn_closed := netConn_closed s; removed := removed s;
     uuid_next := uuid_next s |}.
Definition set_netConn_closed (v : bool) (s : State) : State :=
  {| c_id := c_id s; timeout := timeout s; closeCh := closeCh s;
     pendingCalls := pendingCalls s; pendingCnt := pendingCnt s;
     maxPendingCalls := maxPendingCalls s; chans := chans s; rl := rl s;
     wl := wl s; calls := calls s; pings := pings s;
     conn_writes := conn_writes s;
     conn_writeDeadline := conn_writeDeadline s; netConn_closed := v;
     removed := removed s; uuid_next := uuid_next s |}.
Definition set_removed (v : list string) (s : State) : State :=
  {| c_id := c_id s; timeout := timeout s; closeCh := closeCh s;
     pendingCalls := pendingCalls s; pendingCnt := pendingCnt s;
     maxPendingCalls := maxPendingCalls s; chans := chans s; rl := rl s;
     wl := wl s; calls := calls s; pings := pings s;
     conn_writes := conn_writes s;
     conn_writeDeadline := conn_writeDeadline s;
     netConn_closed := netConn_closed s; removed := v;
     uuid_next := uuid_next s |}.
Definition set_uuid_next (v : nat) (s : State) : State :=
  {| c_id := c_id s; timeout := timeout s; closeCh := closeCh s;
     pendingCalls := pendingCalls s; pendingCnt := pendingCnt s;
     maxPendingCalls := maxPendingCalls s; chans := chans s; rl := rl s;
     wl := wl s; calls := calls s; pings := pings s;
     conn_writes := conn_writes s;
     conn_writeDeadline := conn_writeDeadline s;
     netConn_closed := netConn_closed s; removed := removed s;
     uuid_next := v |}.

Definition set_call (k : nat) (pc : CallPc) (s : State) : State :=
  set_calls (<[k := pc]> (calls s)) s.

Definition set_ping (i : nat) (pc : PingPc) (s : State) : State :=
  set_pings (<[i := pc]> (pings s)) s.

(** [makeClient]: fresh channels, an empty table, a zero counter, the zero
    [timeout]; [run] then starts both loops. *)
Definition makeClient (maxPendingCall : Z) (id : string) : State :=
  {| c_id := id;
     timeout := {| PingPeriod := 0; PingWait := 0; ReadWait := 0 |};
     closeCh := [];
     pendingCalls := ∅;
     pendingCnt := 0;
     maxPendingCalls := maxPendingCall;
     chans := [];
     rl := RL_ReadMessage;
     wl := WL_select;
     calls := [];
     pings := [];
     conn_writes := [];
     conn_writeDeadline := 0;
     netConn_closed := false;
     removed := [];
     uuid_next := 0 |}.

(** A send on a channel of capacity one goes through when the buffer is
    empty and blocks otherwise. *)
Definition has_room {A} (buf : list A) : bool := bool_decide (length buf < 1)%nat.

(** ** readLoop *)

Section WithRevision.

Context (rev : Revision).

(** The response built after a successful handler call; [fresh] is the value
    of [uuid.NewString()], which only the second listing calls here. *)
Definition response (message : Message) (respData : bytes) (fresh : string) : Message :=
  {| Id := match rev with Rev1 => Id message | Rev2 => fresh end;
     Typ := Resp;
     Action := Action message;
     Data := respData |}.

(** One pass through the body of the [for] loop, from the return of
    [ReadMessage] ([None] is a read error) to the next suspension point. *)
Definition readLoop_body (r : option bytes) (s : State) : State :=
  match r with
  | None => set_rl RL_closeCh_send s
  | Some msg =>
    match protocol_ToMessage msg with
    | ToMessage_err => set_rl RL_closeCh_send s
    | ToMessage_ok None =>
      match rev with
      | Rev1 => s                                   (* continue *)
      | Rev2 => set_rl RL_closeCh_send s
      end
    | ToMessage_ok (Some message) =>
      match Typ message with
      | Resp =>
        match pendingCalls s !! Id message with
        | Some callCh => set_rl (RL_callCh_send callCh message) s
        | None => s                                 (* continue *)
        end
      | Req =>
        match getHandler (Action message) with
        | None =>
          match rev with
          | Rev1 => s                               (* continue *)
          | Rev2 => set_rl RL_closeCh_send s
          end
        | Some h =>
          match h message with
          | None => set_rl RL_closeCh_send s
          | Some respData =>
            let resp := response message respData (uuid_NewString (uuid_next s)) in
            let s := match rev with
                     | Rev1 => s
                     | Rev2 => set_uuid_next (S (uuid_next s)) s
                     end in
            match Message_ToBytes resp with
            | None => set_rl RL_closeCh_send s
            | Some msgOut => set_rl (RL_messageOut_send msgOut) s
            end
          end
        end
      end
    end
  end.

(** ** writeLoop *)

(** [case msg, ok := <-c.messageOut]: the three transport calls of the first
    listing, the two of the second (it never closes the writer).  Nothing in
    the source closes [messageOut], so the branch [!ok] is never taken. *)
Definition writeLoop_write (msg : bytes) (nextWriter write close : bool) (s : State) : State :=
  let ok := match rev with
            | Rev1 => nextWriter && write && close
            | Rev2 => nextWriter && write
            end in
  let s := set_conn_writes (conn_writes s ++ [(TextMessage msg, ok)]) s in
  if ok then set_wl WL_select s else set_wl WL_closeCh_send s.

(** [case <-c.pingCh]. *)
Definition writeLoop_pong (ok : bool) (s : State) : State :=
  let s := set_conn_writes (conn_writes s ++ [(PongMessage [], ok)]) s in
  if ok then set_wl WL_select s else set_wl WL_closeCh_send s.

(** [case <-c.closeCh].  The [break] statements leave the [select], not the
    [for]: in both listings and on both outcomes the loop goes round again. *)
Definition writeLoop_closeFrame (ok : bool) (s : State) : State :=
  let s := set_conn_writes (conn_writes s ++ [(CloseMessage CloseNormalClosure EmptyString, ok)]) s in
  if ok then set_wl WL_select s
  else set_wl WL_select (set_netConn_closed true s).

(** ** Call *)

(** The steps of [Call] that cannot block. *)
Definition Call_next (k : nat) (pc : CallPc) (s : State) : option State :=
  match pc with
  | C_entry action data =>
    if bool_decide (int32 (maxPendingCalls s) ≤ pendingCnt s) then
      Some (set_call k (C_returned_early (inr ErrMaxPending)) s)
    else
      match json_Marshal data with
      | None => Some (set_call k (C_returned_early (inr ErrMarshal)) s)
      | Some raw =>
        let req := {| Id := uuid_NewString (uuid_next s); Typ := Req;
                      Action := action; Data := raw |} in
        let respCh := length (chans s) in
        Some (set_call k (C_Store req respCh)
                (set_chans (chans s ++ [[]])
                   (set_uuid_next (S (uuid_next s)) s)))
      end
  | C_Store req respCh =>
    Some (set_call k (C_Add req respCh)
            (set_pendingCalls (<[Id req := respCh]> (pendingCalls s)) s))
  | C_Add req respCh =>
    let s := set_pendingCnt (int32 (pendingCnt s + 1)) s in
    match Message_ToBytes req with
    | None => Some (set_call k (C_defer_Delete req respCh (inr ErrToBytes)) s)
    | Some msgBytes => Some (set_call k (C_messageOut_send req respCh msgBytes) s)
    end
  | C_defer_Delete req respCh ret =>
    Some (set_call k (C_defer_Add req respCh ret)
            (set_pendingCalls (delete (Id req) (pendingCalls s)) s))
  | C_defer_Add req respCh ret =>
    Some (set_call k (C_returned req respCh ret)
            (set_pendingCnt (int32 (pendingCnt s - 1)) s))
  | C_messageOut_send _ _ _ | C_select _ _
  | C_returned_early _ | C_returned _ _ _ => None
  end.

(** ** Schedules *)

Inductive Event :=
(* readLoop *)
| ReadMessage (r : option bytes)       (* ReadMessage returns msg, or an error *)
| ReadLoop_closeCh                     (* its c.closeCh <- true goes through *)
| ReadLoop_callCh                      (* its callCh <- message goes through *)
| ReadLoop_messageOut                  (* writeLoop receives its msgOut *)
| ReadLoop_defer                       (* its deferred s.Remove(c.id) *)
(* writeLoop *)
| WriteLoop_write (nextWriter write close : bool)
| WriteLoop_pong (ok : bool)
| WriteLoop_recv_closeCh               (* select takes case <-c.closeCh *)
| WriteLoop_closeFrame (ok : bool)
| WriteLoop_closeCh                    (* its c.closeCh <- true goes through *)
| WriteLoop_defer
(* ping callback *)
| Ping (appData : string)              (* the transport calls the handler *)
| Ping_pingCh (i : nat)                (* writeLoop receives from pingCh *)
| Ping_SetWriteDeadline (i : nat) (now : Z)
(* callers *)
| Call (action : string) (data : any)   (* a goroutine enters Call *)
| Call_step (k : nat)                  (* caller k: next non-blocking step *)
| Call_messageOut (k : nat)            (* writeLoop receives its msgBytes *)
| Call_respCh (k : nat)                (* select takes case resp := <-respCh *)
| Call_timeout (k : nat).              (* select takes case <-time.After *)

Definition step (e : Event) (s : State) : option State :=
  match e with
  | ReadMessage r =>
    match rl s with
    | RL_ReadMessage => Some (readLoop_body r s)
    | _ => None
    end
  | ReadLoop_closeCh =>
    match rl s with
    | RL_closeCh_send =>
      if has_room (closeCh s)
      then Some (set_rl RL_deferred (set_closeCh (closeCh s ++ [true]) s))
      else None
    | _ => None
    end
  | ReadLoop_callCh =>
    match rl s with
    | RL_callCh_send callCh message =>
      match chans s !! callCh with
      | Some buf =>
        if has_room buf
        then Some (set_rl RL_ReadMessage
                     (set_chans (<[callCh := buf ++ [message]]> (chans s)) s))
        else None
      | None => None
      end
    | _ => None
    end
  | ReadLoop_messageOut =>
    match rl s, wl s with
    | RL_messageOut_send msgOut, WL_select =>
      Some (set_rl RL_ReadMessage (set_wl (WL_write msgOut) s))
    | _, _ => None
    end
  | ReadLoop_defer =>
    match rl s with
    | RL_deferred => Some (set_rl RL_exited (set_removed (removed s ++ [c_id s]) s))
    | _ => None
    end
  | WriteLoop_write nextWriter write close =>
    match wl s with
    | WL_write msg => Some (writeLoop_write msg nextWriter write close s)
    | _ => None
    end
  | WriteLoop_pong ok =>
    match wl s with
    | WL_pong => Some (writeLoop_pong ok s)
    | _ => None
    end
  | WriteLoop_recv_closeCh =>
    match wl s, closeCh s with
    | WL_select, _ :: rest => Some (set_wl WL_closeFrame (set_closeCh rest s))
    | _, _ => None
    end
  | WriteLoop_closeFrame ok =>
    match wl s with
    | WL_closeFrame => Some (writeLoop_closeFrame ok s)
    | _ => None
    end
  | WriteLoop_closeCh =>
    match wl s with
    | WL_closeCh_send =>
      if has_room (closeCh s)
      then Some (set_wl WL_deferred (set_closeCh (closeCh s ++ [true]) s))
      else None
    | _ => None
    end
  | WriteLoop_defer =>
    match wl s with
    | WL_deferred => Some (set_wl WL_exited (set_removed (removed s ++ [c_id s]) s))
    | _ => None
    end
  | Ping appData =>
    Some (set_pings (pings s ++ [PH_pingCh_send appData]) s)
  | Ping_pingCh i =>
    match pings s !! i, wl s with
    | Some (PH_pingCh_send _), WL_select =>
      Some (set_ping i PH_SetWriteDeadline (set_wl WL_pong s))
    | _, _ => None
    end
  | Ping_SetWriteDeadline i now =>
    match pings s !! i with
    | Some PH_SetWriteDeadline =>
      let d := match rev with
               | Rev1 => PingPeriod (timeout s)
               | Rev2 => PingWait (timeout s)
               end in
      Some (set_ping i PH_returned (set_conn_writeDeadline (now + d) s))
    | _ => None
    end
  | Call action data =>
    Some (set_calls (calls s ++ [C_entry action data]) s)
  | Call_step k =>
    match calls s !! k with
    | Some pc => Call_next k pc s
    | None => None
    end
  | Call_messageOut k =>
    match calls s !! k, wl s with
    | Some (C_messageOut_send req respCh msgBytes), WL_select =>
      Some (set_call k (C_select req respCh) (set_wl (WL_write msgBytes) s))
    | _, _ => None
    end
  | Call_respCh k =>
    match calls s !! k with
    | Some (C_select req respCh) =>
      match chans s !! respCh with
      | Some (resp :: rest) =>
        Some (set_call k (C_defer_Delete req respCh (inl resp))
                (set_chans (<[respCh := rest]> (chans s)) s))
      | _ => None
      end
    | _ => None
    end
  | Call_timeout k =>
    match calls s !! k with
    | Some (C_select req respCh) =>
      Some (set_call k (C_defer_Delete req respCh (inr ErrTimeout)) s)
    | _ => None
    end
  end.

Fixpoint run (tr : list Event) (s : State) : option State :=
  match tr with
  | [] => Some s
  | e :: tr => match step e s with
               | Some s' => run tr s'
               | None => None
               end
  end.

End WithRevision.
End Engine.

(** ** What the claims talk about *)

Section Observations.

Context `{D : Deps}.

(** The correlation id and the channel of an invocation of [Call], from the
    moment it has built [req] and made [respCh]. *)
Definition call_reg (pc : CallPc) : option (string * nat) :=
  match pc with
  | C_entry _ _ | C_returned_early _ => None
  | C_Store req respCh | C_Add req respCh | C_messageOut_send req respCh _
  | C_select req respCh | C_defer_Delete req respCh _
  | C_defer_Add req respCh _ | C_returned req respCh _ => Some (Id req, respCh)
  end.

(** Between its [Store] and its deferred [Delete] the invocation has an entry
    in the table. *)
Definition in_table (pc : CallPc) : bool :=
  match pc with
  | C_Add _ _ | C_messageOut_send _ _ _ | C_select _ _ | C_defer_Delete _ _ _ => true
  | _ => false
  end.

(** Between its [Add(1)] and its deferred [Add(-1)] it is counted. *)
Definition counted (pc : CallPc) : bool :=
  match pc with
  | C_messageOut_send _ _ _ | C_select _ _ | C_defer_Delete _ _ _
  | C_defer_Add _ _ _ => true
  | _ => false
  end.

Fixpoint in_flight (l : list CallPc) : nat :=
  match l with
  | [] => 0
  | pc :: l => (if counted pc then 1 else 0) + in_flight l
  end.

(** The values [Call] returns, once they are decided. *)
Definition call_ret (pc : CallPc) : option CallResult :=
  match pc with
  | C_defer_Delete _ _ ret | C_defer_Add _ _ ret | C_returned _ _ ret
  | C_returned_early ret => Some ret
  | _ => None
  end.

Definition owns (l : list CallPc) (k : nat) (id : string) (respCh : nat) : Prop :=
  (call_reg <$> l) !! k = Some (Some (id, respCh)).

(** The invariant of the correlation table. *)
Record table_inv (s : State) : Prop := {
  inv_fresh : ∀ k id ch, owns (calls s) k id ch →
    (∃ n, (n < uuid_next s)%nat ∧ id = uuid_NewString n) ∧ (ch < length (chans s))%nat;
  inv_inj : ∀ k1 k2 id1 ch1 id2 ch2,
    owns (calls s) k1 id1 ch1 → owns (calls s) k2 id2 ch2 →
    id1 = id2 ∨ ch1 = ch2 → k1 = k2;
  inv_table : ∀ k pc id ch,
    calls s !! k = Some pc → call_reg pc = Some (id, ch) →
    pendingCalls s !! id = if in_table pc then Some ch else None;
  inv_table_owned : ∀ id ch,
    pendingCalls s !! id = Some ch → ∃ k, owns (calls s) k id ch;
  inv_chan : ∀ ch buf m,
    chans s !! ch = Some buf → m ∈ buf → ∃ k, owns (calls s) k (Id m) ch;
  inv_rl : ∀ ch m,
    rl s = RL_callCh_send ch m → ∃ k, owns (calls s) k (Id m) ch;
  inv_ret : ∀ k pc m,
    calls s !! k = Some pc → call_ret pc = Some (inl m) →
    ∃ ch, call_reg pc = Some (Id m, ch);
  inv_cnt : pendingCnt s = int32 (Z.of_nat (in_flight (calls s)))
}.

(** Pong writes issued on the transport, and ping signals received by
    [writeLoop] in a schedule. *)
Definition is_pong (w : Frame * bool) : bool :=
  match w.1 with PongMessage _ => true | _ => false end.

Definition pongs (ws : list (Frame * bool)) : nat := length (filter is_pong ws).

Definition is_handoff (e : Event) : bool :=
  match e with Ping_pingCh _ => true | _ => false end.

Definition handoffs (tr : list Event) : nat := length (filter is_handoff tr).

(** [writeLoop] holds a ping signal it has not answered yet. *)
Definition pong_due (s : State) : nat :=
  match wl s with WL_pong => 1 | _ => 0 end.

(** The events in which [writeLoop] drives the transport. *)
Definition writes_transport (e : Event) : bool :=
  match e with
  | WriteLoop_write _ _ _ | WriteLoop_pong _ | WriteLoop_closeFrame _ => true
  | _ => false
  end.

(** Workers that have run their deferred [s.Remove(c.id)]. *)
Definition exited_workers (s : State) : nat :=
  (match rl s with RL_exited => 1 | _ => 0 end +
   match wl s with WL_exited => 1 | _ => 0 end)%nat.


(** ** Claims that the code does not meet as they are worded *)

(** Deregistration exactly once for a connection whose workers are gone. *)
Definition Remove_exactly_once (rev : Revision) (maxPendingCall : Z) (id : string) : Prop :=
  ∀ tr s, run rev tr (makeClient maxPendingCall id) = Some s →
          rl s = RL_exited → wl s = WL_exited → removed s = [id].

(** A request for an unregistered action either closes the connection or is
    answered with a response that is enqueued. *)
Definition unknown_action_closes_or_answers (rev : Revision) : Prop :=
  ∀ s msg message s',
    rl s = RL_ReadMessage →
    protocol_ToMessage msg = ToMessage_ok (Some message) →
    Typ message = Req → getHandler (Action message) = None →
    step rev (ReadMessage (Some msg)) s = Some s' →
    rl s' = RL_closeCh_send ∨ ∃ msgOut, rl s' = RL_messageOut_send msgOut.

(** A nil envelope is skipped and the loop goes on; a decode error sends the
    worker to raise the close signal. *)
Definition nil_skipped_decode_error_fatal (rev : Revision) : Prop :=
  ∀ s msg,
    rl s = RL_ReadMessage →
    (protocol_ToMessage msg = ToMessage_ok None →
     step rev (ReadMessage (Some msg)) s = Some s) ∧
    (protocol_ToMessage msg = ToMessage_err →
     step rev (ReadMessage (Some msg)) s = Some (set_rl RL_closeCh_send s)).

(** ** Further observations *)

Definition is_close (w : Frame * bool) : bool :=
  match w.1 with CloseMessage _ _ => true | _ => false end.

Definition close_frames (ws : list (Frame * bool)) : nat := length (filter is_close ws).

(** [writeLoop] is inside its [for] loop: it can still take a case of its
    [select], now or after the write it is busy with. *)
Definition writeLoop_serving (s : State) : bool :=
  match wl s with
  | WL_select | WL_write _ | WL_pong | WL_closeFrame => true
  | _ => false
  end.

(** [readLoop] has not yet sent its close signal. *)
Definition readLoop_may_raise (s : State) : bool :=
  match rl s with
  | RL_deferred | RL_exited => false
  | _ => true
  end.

(** Close frames written, being written, or still to come from the signals
    that [writeLoop] can receive. *)
Definition close_budget (s : State) : nat :=
  (close_frames (conn_writes s) +
   (match wl s with WL_closeFrame => 1 | _ => 0 end) +
   (if writeLoop_serving s
    then length (closeCh s) + (if readLoop_may_raise s then 1 else 0)
    else 0))%nat.

(** A caller between the check of the counter and its [Add(1)]. *)
Definition in_window (pc : CallPc) : bool :=
  match pc with
  | C_Store _ _ | C_Add _ _ => true
  | _ => false
  end.

Fixpoint window (l : list CallPc) : nat :=
  match l with
  | [] => 0
  | pc :: l => (if in_window pc then 1 else 0) + window l
  end.

(** A schedule in which a caller executes the check of the counter only
    when no other caller is between its own check and its [Add(1)]. *)
Fixpoint exclusive (rev : Revision) (tr : list Event) (s : State) : bool :=
  match tr with
  | [] => true
  | e :: tr =>
    match e with
    | Call_step k =>
      match calls s !! k with
      | Some (C_entry _ _) => bool_decide (window (calls s) = 0%nat)
      | _ => true
      end
    | _ => true
    end &&
    match step rev e s with
    | Some s' => exclusive rev tr s'
    | None => true
    end
  end.

(** What may go on the transport: an encoded envelope, a pong without
    payload, a close frame with the normal-closure code and no text. *)
Definition envelope_pong_or_close (w : Frame * bool) : Prop :=
  match w.1 with
  | TextMessage msg => ∃ m, Message_ToBytes m = Some msg
  | PongMessage payload => payload = []
  | CloseMessage code text => code = CloseNormalClosure ∧ text = EmptyString
  end.

(** The values an invocation of [Call] may be about to return. *)
Definition call_outcome_ok (pc : CallPc) : Prop :=
  match pc with
  | C_returned_early ret => ret = inr ErrMaxPending ∨ ret = inr ErrMarshal
  | C_defer_Delete _ _ ret | C_defer_Add _ _ ret | C_returned _ _ ret =>
    ret = inr ErrToBytes ∨ ret = inr ErrTimeout ∨
    ∃ resp, ret = inl resp ∧ Typ resp = Resp
  | _ => True
  end.

(** Messages on their way to the transport are encoded envelopes. *)
Record outbound_inv (s : State) : Prop := {
  out_writes : Forall envelope_pong_or_close (conn_writes s);
  out_wl : ∀ msg, wl s = WL_write msg → ∃ m, Message_ToBytes m = Some msg;
  out_rl : ∀ msgOut, rl s = RL_messageOut_send msgOut →
                     ∃ m, Message_ToBytes m = Some msgOut;
  out_calls : ∀ k req respCh msgBytes,
    calls s !! k = Some (C_messageOut_send req respCh msgBytes) →
    Message_ToBytes req = Some msgBytes
}.

(** The caller has left its [select]: it will not receive from its channel
    again. *)
Definition past_select (pc : CallPc) : bool :=
  match pc with
  | C_defer_Delete _ _ _ | C_defer_Add _ _ _ | C_returned _ _ _ => true
  | _ => false
  end.

End Observations.

(** ** A concrete instance, for examples

    A small codec in place of package [protocol]: a frame is
    [id 0 type 0 action 0 data], the type being the letter Q or R; the empty
    frame decodes to a nil message and anything else is a decode error.
    Encoding refuses an envelope without action.  Two handlers are
    registered: [echo] returns the payload, [fail] returns nil.  A value
    passed to [Call] is its JSON text, or [None] for a value [json.Marshal]
    rejects.  [uuid.NewString] hands out [call-0], [call-1], ... *)
Module Demo.

Definition B (s : string) : bytes := String.list_byte_of_string s.

Fixpoint cut (b : bytes) : option (bytes * bytes) :=
  match b with
  | [] => None
  | x00 :: rest => Some ([], rest)
  | c :: rest =>
    match cut rest with
    | Some (field, rest') => Some (c :: field, rest')
    | None => None
    end
  end.

Definition encode (m : Message) : option bytes :=
  if decide (Action m = EmptyString) then None
  else Some (B (Id m) ++ [x00] ++ B (match Typ m with Req => "Q" | Resp => "R" end)
             ++ [x00] ++ B (Action m) ++ [x00] ++ Data m).

Definition decode (msg : bytes) : ToMessageResult :=
  match msg with
  | [] => ToMessage_ok None
  | _ =>
    match cut msg with
    | Some (i, r1) =>
      match cut r1 with
      | Some (t, r2) =>
        match cut r2 with
        | Some (a, d) =>
          let mk ty := ToMessage_ok (Some {| Id := String.string_of_list_byte i; Typ := ty;
                                             Action := String.string_of_list_byte a; Data := d |}) in
          match t with
          | [x51] => mk Req
          | [x52] => mk Resp
          | _ => ToMessage_err
          end
        | None => ToMessage_err
        end
      | None => ToMessage_err
      end
    | None => ToMessage_err
    end
  end.

Definition handlers (action : string) : option Handler :=
  if decide (action = "echo") then Some (λ m, Some (Data m))
  else if decide (action = "fail") then Some (λ _, None)
  else None.

Definition uuid (n : nat) : string := "call-" +:+ pretty n.

Definition deps : Deps := {|
  any := option bytes;
  json_Marshal := λ data, data;
  Message_ToBytes := encode;
  protocol_ToMessage := decode;
  getHandler := handlers;
  uuid_NewString := uuid
|}.

(** A request and a response frame. *)
Definition request (id action : string) (data : string) : bytes :=
  B id ++ [x00] ++ B "Q" ++ [x00] ++ B action ++ [x00] ++ B data.

Definition reply (id action : string) (data : string) : bytes :=
  B id ++ [x00] ++ B "R" ++ [x00] ++ B action ++ [x00] ++ B data.


Definition data (s : string) : @any deps := Some (B s).

(** Two callers, the peer answers the second one first. *)
Definition two_calls : list (Event (D := deps)) :=
  [ Call "A" (data "1"); Call "B" (data "2");
    Call_step 0; Call_step 1; Call_step 0; Call_step 1; Call_step 0; Call_step 1;
    Call_messageOut 0; WriteLoop_write true true true;
    Call_messageOut 1; WriteLoop_write true true true;
    ReadMessage (Some (reply "call-1" "B" "rb")); ReadLoop_callCh;
    ReadMessage (Some (reply "call-0" "A" "ra")); ReadLoop_callCh;
    Call_respCh 0; Call_respCh 1;
    Call_step 0; Call_step 0; Call_step 1; Call_step 1 ].

(** Two callers on a client that allows one pending call: both read the
    counter before either has incremented it. *)
Definition race : list (Event (D := deps)) :=
  [ Call "A" (data "1"); Call "B" (data "2");
    Call_step 0; Call_step 1;          (* both: Load() = 0, and 0 >= 1 is false *)
    Call_step 0; Call_step 0;          (* first caller: Store, Add(1) *)
    Call_step 1; Call_step 1 ].        (* second caller: Store, Add(1) *)

(** A call left unanswered until its timer fires. *)
Definition timed_out : list (Event (D := deps)) :=
  [ Call "echo" (data "{x:1}");
    Call_step 0; Call_step 0; Call_step 0;
    Call_messageOut 0; WriteLoop_write true true true;
    Call_timeout 0; Call_step 0; Call_step 0 ].

(** A read error closes the connection; afterwards the application calls. *)
Definition call_after_close : list (Event (D := deps)) :=
  [ ReadMessage None; ReadLoop_closeCh; ReadLoop_defer;
    WriteLoop_recv_closeCh; WriteLoop_closeFrame true;
    Call "echo" (data "1");
    Call_step 0; Call_step 0; Call_step 0;
    Call_messageOut 0; WriteLoop_write true true true ].

(** A malformed frame closes the connection; the write for a later call
    fails in [NextWriter]. *)
Definition malformed_then_call : list (Event (D := deps)) :=
  [ ReadMessage (Some (B "garbage")); ReadLoop_closeCh; ReadLoop_defer;
    WriteLoop_recv_closeCh; WriteLoop_closeFrame true;
    Call "echo" (data "1");
    Call_step 0; Call_step 0; Call_step 0;
    Call_messageOut 0; WriteLoop_write false false false;
    WriteLoop_closeCh; WriteLoop_defer ].

(** Two pings while a call is being written. *)
Definition two_pings : list (Event (D := deps)) :=
  [ Ping "p1"; Call "echo" (data "1"); Ping "p2";
    Call_step 0; Call_step 0; Call_step 0;
    Ping_pingCh 1; WriteLoop_pong true; Ping_SetWriteDeadline 1 100;
    Call_messageOut 0; WriteLoop_write true true true;
    Ping_pingCh 0; WriteLoop_pong true ].


(** A malformed frame, a request nobody handles, and a served request. *)
Definition garbage : bytes := B "garbage".
Definition unknown_request : bytes := request "r-1" "nope" EmptyString.
Definition echo_request : bytes := request "abc" "echo" "hi".

(** A caller whose payload cannot be marshalled, and one whose request
    cannot be encoded (it has no action). *)
Definition unmarshallable : @any deps := None.
Definition bad_payload : list (Event (D := deps)) := [ Call "echo" unmarshallable ].
Definition bad_request : list (Event (D := deps)) := [ Call EmptyString (data "1") ].

(** The state a schedule leads to from a new client of connection [conn]. *)
Definition final (rev : Revision) (tr : list (Event (D := deps)))
    (maxPendingCall : Z) : State :=
  default (makeClient maxPendingCall "conn")
          (run rev tr (makeClient maxPendingCall "conn")).

(** The write of a first call fails and [writeLoop] exits; a second caller
    then enters [Call]; finally the read fails too. *)
Definition call_after_write_failure : list (Event (D := deps)) :=
  [ Call "echo" (data "1");
    Call_step 0; Call_step 0; Call_step 0;
    Call_messageOut 0; WriteLoop_write true false false;
    WriteLoop_closeCh; WriteLoop_defer;
    Call "echo" (data "2");
    Call_step 1; Call_step 1; Call_step 1;
    ReadMessage None ].

(** One caller after the other on a client that allows one pending call:
    the first times out and returns before the second enters. *)
Definition one_at_a_time : list (Event (D := deps)) :=
  [ Call "A" (data "1");
    Call_step 0; Call_step 0; Call_step 0;
    Call_messageOut 0; WriteLoop_write true true true;
    Call_timeout 0; Call_step 0; Call_step 0;
    Call "B" (data "2");
    Call_step 1; Call_step 1; Call_step 1 ].

(** The peer answers a call twice and the caller's timer fires before it
    has taken the first answer. *)
Definition answered_twice : list (Event (D := deps)) :=
  [ Call "echo" (data "1");
    Call_step 0; Call_step 0; Call_step 0;
    Call_messageOut 0; WriteLoop_write true true true;
    ReadMessage (Some (reply "call-0" "echo" "one")); ReadLoop_callCh;
    ReadMessage (Some (reply "call-0" "echo" "two"));
    Call_timeout 0; Call_step 0; Call_step 0 ].

End Demo.

(** * Proofs *)

(** ** Arithmetic of [int32] *)

Lemma int32_range z : - 2 ^ 31 ≤ int32 z < 2 ^ 31.
Proof. unfold int32. pose proof (Z.mod_pos_bound (z + 2 ^ 31) (2 ^ 32)). lia. Qed.

Lemma int32_small z : - 2 ^ 31 ≤ z < 2 ^ 31 → int32 z = z.
Proof. intros H. unfold int32. rewrite Z.mod_small; lia. Qed.

Lemma int32_add_l a b : int32 (int32 a + b) = int32 (a + b).
Proof.
  unfold int32.
  replace ((a + 2 ^ 31) mod 2 ^ 32 - 2 ^ 31 + b + 2 ^ 31)
    with ((a + 2 ^ 31) mod 2 ^ 32 + b) by lia.
  rewrite Zplus_mod_idemp_l. f_equal. f_equal. lia.
Qed.

Lemma int32_sub_l a b : int32 (int32 a - b) = int32 (a - b).
Proof. unfold Z.sub. apply int32_add_l. Qed.

Lemma int32_idem z : int32 (int32 z) = int32 z.
Proof. apply int32_small, int32_range. Qed.

(** ** Counting callers *)

Section Counting.

Context `{D : Deps}.

Lemma in_flight_app (l1 l2 : list CallPc) :
  in_flight (l1 ++ l2) = (in_flight l1 + in_flight l2)%nat.
Proof. induction l1 as [|pc l1 IH]; simpl; [done|]. rewrite IH. lia. Qed.

Lemma in_flight_insert (l : list CallPc) k pc pc' :
  l !! k = Some pc →
  (in_flight (<[k := pc']> l) + (if counted pc then 1 else 0) =
   in_flight l + (if counted pc' then 1 else 0))%nat.
Proof.
  revert k. induction l as [|x l IH]; intros [|k] Hk; simplify_eq/=; [lia|].
  specialize (IH _ Hk). lia.
Qed.

Lemma regs_insert_same (l : list CallPc) k pc pc' :
  l !! k = Some pc → call_reg pc' = call_reg pc →
  call_reg <$> <[k := pc']> l = call_reg <$> l.
Proof.
  intros Hk Hreg. rewrite list_fmap_insert, Hreg.
  apply list_insert_id. by rewrite list_lookup_fmap, Hk.
Qed.

Lemma owns_lookup (l : list CallPc) k id ch :
  owns l k id ch ↔ ∃ pc, l !! k = Some pc ∧ call_reg pc = Some (id, ch).
Proof.
  unfold owns. rewrite list_lookup_fmap. split.
  - destruct (l !! k) as [pc|]; simpl; [|done]. intros [= H]. eauto.
  - intros (pc & -> & H). simpl. by rewrite H.
Qed.

Lemma owns_fun (l : list CallPc) k id1 ch1 id2 ch2 :
  owns l k id1 ch1 → owns l k id2 ch2 → id1 = id2 ∧ ch1 = ch2.
Proof. unfold owns. intros H1 H2. rewrite H1 in H2. by simplify_eq. Qed.

Lemma owns_insert (l : list CallPc) k pc' k0 id ch :
  owns (<[k := pc']> l) k0 id ch ↔
  (k0 = k ∧ (k < length l)%nat ∧ call_reg pc' = Some (id, ch)) ∨
  (k0 ≠ k ∧ owns l k0 id ch).
Proof.
  rewrite !owns_lookup. split.
  - intros (pc0 & [(-> & <- & Hlt)|[Hne Hk0]]%list_lookup_insert_Some & Hreg).
    + by left.
    + right. eauto.
  - intros [(-> & Hlt & Hreg)|[Hne Ho]].
    + exists pc'. by rewrite list_lookup_insert_eq.
    + destruct Ho as (pc0 & Hk0 & Hreg).
      exists pc0. by rewrite list_lookup_insert_ne.
Qed.

Lemma owns_insert_old (l : list CallPc) k pc pc' k0 id ch :
  l !! k = Some pc → call_reg pc = None →
  owns l k0 id ch → owns (<[k := pc']> l) k0 id ch.
Proof.
  intros Hk Hnone Ho. apply owns_insert. right. split; [|done].
  intros ->. apply owns_lookup in Ho as (pc0 & Hk0 & Hreg). congruence.
Qed.

Lemma owns_snoc (l : list CallPc) pc k id ch :
  call_reg pc = None → owns (l ++ [pc]) k id ch ↔ owns l k id ch.
Proof.
  intros Hnone. unfold owns. rewrite fmap_app. simpl. rewrite Hnone.
  split.
  - intros H. destruct (decide (k < length (call_reg <$> l))%nat) as [Hlt|Hge].
    + by rewrite lookup_app_l in H.
    + rewrite lookup_app_r in H by lia.
      destruct (k - length (call_reg <$> l))%nat; simplify_eq/=.
  - intros H. rewrite lookup_app_l; [done|]. by eapply lookup_lt_Some.
Qed.

End Counting.

(** ** The concrete instance hands out distinct ids *)

Lemma Demo_uuid_inj : Inj (=) (=) Demo.uuid.
Proof.
  intros n1 n2 H. apply pretty_nat_inj.
  by apply (String.app_inj "call-").
Qed.

(** ** The table invariant holds along every schedule *)

Section Invariant.

Context `{D : Deps} (rev : Revision).
Hypothesis uuid_inj : Inj (=) (=) uuid_NewString.

Lemma table_inv_makeClient maxPendingCall id :
  table_inv (makeClient maxPendingCall id).
Proof.
  constructor; simpl; unfold owns; simpl; done.
Qed.

(** Steps that leave callers, table, counter and channels alone. *)
Lemma table_inv_frame s s' :
  table_inv s →
  calls s' = calls s → pendingCalls s' = pendingCalls s →
  pendingCnt s' = pendingCnt s → chans s' = chans s →
  (uuid_next s ≤ uuid_next s')%nat →
  (∀ ch m, rl s' = RL_callCh_send ch m → ∃ k, owns (calls s) k (Id m) ch) →
  table_inv s'.
Proof.
  intros [Hf Hi Ht Hto Hc Hr Hret Hcnt] Hcalls Htab Hpc Hch Hu Hrl.
  constructor; rewrite ?Hcalls, ?Htab, ?Hpc, ?Hch; try done.
  intros k id ch Ho. destruct (Hf _ _ _ Ho) as [(n & Hn & ->) Hlen].
  split; [|done]. exists n. split; [lia|done].
Qed.

Lemma table_inv_readLoop_body s r :
  table_inv s → rl s = RL_ReadMessage → table_inv (readLoop_body rev r s).
Proof.
  intros Hinv Hrl. unfold readLoop_body.
  repeat (case_match; try done);
    (eapply table_inv_frame; [exact Hinv|simpl; try done; try lia..]);
    try (intros ch m' Heq; rewrite ?Hrl in Heq; simplify_eq; by eapply inv_table_owned).
Qed.


(** A caller that moves on with the same [req] and [respCh]. *)
Lemma table_inv_same_reg s s' k pc pc' :
  table_inv s →
  calls s !! k = Some pc → call_reg pc' = call_reg pc →
  calls s' = <[k := pc']> (calls s) →
  uuid_next s' = uuid_next s → length (chans s') = length (chans s) →
  rl s' = rl s →
  (∀ ch buf m, chans s' !! ch = Some buf → m ∈ buf →
               ∃ k, owns (calls s) k (Id m) ch) →
  (∀ id ch, pendingCalls s' !! id = Some ch → ∃ k, owns (calls s) k id ch) →
  (∀ id ch, call_reg pc = Some (id, ch) →
            pendingCalls s' !! id = if in_table pc' then Some ch else None) →
  (∀ k0 pc0 id ch, k ≠ k0 → calls s !! k0 = Some pc0 →
                   call_reg pc0 = Some (id, ch) →
                   pendingCalls s' !! id = pendingCalls s !! id) →
  (∀ m, call_ret pc' = Some (inl m) → ∃ ch, call_reg pc = Some (Id m, ch)) →
  pendingCnt s' = int32 (Z.of_nat (in_flight (<[k := pc']> (calls s)))) →
  table_inv s'.
Proof.
  intros [Hf Hi Ht Hto Hc Hr Hret Hcnt] Hk Hreg Hcalls Hu Hlen Hrl Hc' Hto' Htk Htne Hretk Hcnt'.
  constructor; rewrite ?Hcalls, ?Hu, ?Hlen, ?Hrl; unfold owns in *;
    rewrite ?(regs_insert_same _ k pc) by done; try done.
  - intros k0 pc0 id ch [(-> & <- & _)|[Hne Hk0]]%list_lookup_insert_Some Hr0.
    + apply Htk. by rewrite <- Hreg.
    + rewrite (Htne _ _ _ _ Hne Hk0 Hr0). eauto.
  - intros k0 pc0 m [(-> & <- & _)|[Hne Hk0]]%list_lookup_insert_Some Hr0.
    + rewrite Hreg. eauto.
    + eauto.
Qed.


Local Ltac count_tac Hk Hcnt :=
  match goal with
  | |- _ = int32 (Z.of_nat (in_flight (<[_ := ?pc']> _))) =>
    let Hif := fresh "Hif" in
    pose proof (in_flight_insert _ _ _ pc' Hk) as Hif; simpl in Hif;
    rewrite ?Hcnt, ?int32_add_l, ?int32_sub_l; f_equal; lia
  end.

Lemma table_inv_Call_next s s' k pc :
  table_inv s → calls s !! k = Some pc → Call_next k pc s = Some s' →
  table_inv s'.
Proof.
  intros Hinv Hk Hstep.
  pose proof Hinv as [Hf Hi Ht Hto Hc Hr Hret Hcnt].
  destruct pc as [action data|req ch|req ch|req ch b|req ch|req ch ret|req ch ret|ret|req ch ret];
    simpl in Hstep; try done.
  - (* entry *)
    case_bool_decide as Hcap; [|destruct (json_Marshal data) as [raw|] eqn:Hm];
      simplify_eq.
    + eapply (table_inv_same_reg _ _ k _ (C_returned_early _)); eauto; simpl; try done.
      count_tac Hk Hcnt.
    + constructor; simpl.
      * intros k0 id ch [(-> & Hlt & [= <- <-])|[Hne Ho]]%owns_insert.
        -- rewrite length_app. simpl. split; [|lia].
           exists (uuid_next s). split; [lia|done].
        -- destruct (Hf _ _ _ Ho) as [(n & Hn & ->) Hlen].
           rewrite length_app. split; [|lia]. exists n. split; [lia|done].
      * intros k1 k2 id1 ch1 id2 ch2
          [(-> & _ & [= <- <-])|[Hne1 Ho1]]%owns_insert
          [(-> & _ & [= <- <-])|[Hne2 Ho2]]%owns_insert Heq; try done.
        -- destruct (Hf _ _ _ Ho2) as [(n & Hn & ->) Hlen].
           destruct Heq as [Heq%uuid_inj|Heq]; lia.
        -- destruct (Hf _ _ _ Ho1) as [(n & Hn & ->) Hlen].
           destruct Heq as [Heq%uuid_inj|Heq]; lia.
        -- eauto.
      * intros k0 pc0 id ch [(-> & <- & _)|[Hne Hk0]]%list_lookup_insert_Some Hreg;
          [|by eauto].
        simpl in *. simplify_eq.
        destruct (pendingCalls s !! uuid_NewString (uuid_next s)) as [ch|] eqn:Hl;
          [|done].
        destruct (Hto _ _ Hl) as [k1 Ho].
        destruct (Hf _ _ _ Ho) as [(n & Hn & Heq%uuid_inj) _]. lia.
      * intros id ch Hl. destruct (Hto _ _ Hl) as [k1 Ho].
        exists k1. by eapply owns_insert_old.
      * intros ch buf m Hl Hin.
        assert (chans s !! ch = Some buf) as Hl'.
        { destruct (decide (ch < length (chans s))%nat).
          - by rewrite lookup_app_l in Hl.
          - rewrite lookup_app_r in Hl by lia.
            destruct (ch - length (chans s))%nat; simplify_eq/=.
            by apply elem_of_nil in Hin. }
        destruct (Hc _ _ _ Hl' Hin) as [k1 Ho].
        exists k1. by eapply owns_insert_old.
      * intros ch m Hrl. destruct (Hr _ _ Hrl) as [k1 Ho].
        exists k1. by eapply owns_insert_old.
      * intros k0 pc0 m [(-> & <- & _)|[Hne Hk0]]%list_lookup_insert_Some Hr0;
          [done|by eauto].
      * count_tac Hk Hcnt.
    + eapply (table_inv_same_reg _ _ k _ (C_returned_early _)); eauto; simpl; try done.
      count_tac Hk Hcnt.
  - (* Store *)
    simplify_eq.
    eapply (table_inv_same_reg _ _ k _ (C_Add _ _)); eauto; simpl; try done.
    + intros id ch0 [[<- <-]|[Hne Hl]]%lookup_insert_Some; [|by eauto].
      exists k. apply owns_lookup. eauto.
    + intros id ch0 [= <- <-]. apply lookup_insert_eq.
    + intros k0 pc0 id ch0 Hne Hk0 Hreg. apply lookup_insert_ne.
      intros Heq. apply Hne. apply (Hi k k0 (Id req) ch id ch0); [| |by left];
        apply owns_lookup; eauto.
    + count_tac Hk Hcnt.
  - (* Add *)
    destruct (Message_ToBytes req) as [msgBytes|]; simplify_eq.
    + eapply (table_inv_same_reg _ _ k _ (C_messageOut_send _ _ _)); eauto; simpl; try done.
      * intros id ch0 Hreg. apply (Ht _ _ _ _ Hk Hreg).
      * count_tac Hk Hcnt.
    + eapply (table_inv_same_reg _ _ k _ (C_defer_Delete _ _ _)); eauto; simpl; try done.
      * intros id ch0 Hreg. apply (Ht _ _ _ _ Hk Hreg).
      * count_tac Hk Hcnt.
  - (* deferred Delete *)
    simplify_eq.
    eapply (table_inv_same_reg _ _ k _ (C_defer_Add _ _ _)); eauto; simpl; try done.
    + intros id ch0 [Hne Hl]%lookup_delete_Some. eauto.
    + intros id ch0 [= <- <-]. apply lookup_delete_eq.
    + intros k0 pc0 id ch0 Hne Hk0 Hreg. apply lookup_delete_ne.
      intros Heq. apply Hne. apply (Hi k k0 (Id req) ch id ch0); [| |by left];
        apply owns_lookup; eauto.
    + count_tac Hk Hcnt.
  - (* deferred Add *)
    simplify_eq.
    eapply (table_inv_same_reg _ _ k _ (C_returned _ _ _)); eauto; simpl; try done.
    + intros id ch0 Hreg. apply (Ht _ _ _ _ Hk Hreg).
    + count_tac Hk Hcnt.
Qed.


Local Ltac frame_tac Hinv :=
  eapply table_inv_frame; [exact Hinv|simpl; try done; try lia..];
  try (intros ? ? Heq; by eapply inv_rl).

Lemma table_inv_step e s s' :
  table_inv s → step rev e s = Some s' → table_inv s'.
Proof.
  intros Hinv Hstep.
  pose proof Hinv as [Hf Hi Ht Hto Hc Hr Hret Hcnt].
  destruct e; simpl in Hstep.
  - (* ReadMessage *)
    destruct (rl s) eqn:Hrl; simplify_eq. by apply table_inv_readLoop_body.
  - (* ReadLoop_closeCh *)
    destruct (rl s) eqn:Hrl; try done. case_match; simplify_eq. frame_tac Hinv.
  - (* ReadLoop_callCh *)
    destruct (rl s) as [| |callCh message| | |] eqn:Hrl; try done.
    destruct (chans s !! callCh) as [buf|] eqn:Hbuf; [|done].
    case_match; simplify_eq.
    constructor; simpl; rewrite ?length_insert; try done.
    intros ch buf' m [(-> & <- & _)|[Hne Hl]]%list_lookup_insert_Some Hin;
      [|by eauto].
    apply elem_of_app in Hin as [Hin|Hin%list_elem_of_singleton]; [by eauto|].
    subst m. by apply Hr.
  - (* ReadLoop_messageOut *)
    destruct (rl s) eqn:Hrl, (wl s); simplify_eq. frame_tac Hinv.
  - (* ReadLoop_defer *)
    destruct (rl s) eqn:Hrl; simplify_eq. frame_tac Hinv.
  - (* WriteLoop_write *)
    destruct (wl s); simplify_eq. unfold writeLoop_write.
    case_match; frame_tac Hinv.
  - (* WriteLoop_pong *)
    destruct (wl s); simplify_eq. unfold writeLoop_pong.
    case_match; frame_tac Hinv.
  - (* WriteLoop_recv_closeCh *)
    destruct (wl s), (closeCh s); simplify_eq. frame_tac Hinv.
  - (* WriteLoop_closeFrame *)
    destruct (wl s); simplify_eq. unfold writeLoop_closeFrame.
    case_match; frame_tac Hinv.
  - (* WriteLoop_closeCh *)
    destruct (wl s); try done. case_match; simplify_eq. frame_tac Hinv.
  - (* WriteLoop_defer *)
    destruct (wl s); simplify_eq. frame_tac Hinv.
  - (* Ping *)
    simplify_eq. frame_tac Hinv.
  - (* Ping_pingCh *)
    destruct (pings s !! i) as [[]|], (wl s); simplify_eq. frame_tac Hinv.
  - (* Ping_SetWriteDeadline *)
    destruct (pings s !! i) as [[]|]; simplify_eq. frame_tac Hinv.
  - (* Call *)
    simplify_eq. constructor; simpl; try done.
    + intros k id ch Ho%owns_snoc; [eauto|done].
    + intros k1 k2 id1 ch1 id2 ch2 Ho1%owns_snoc Ho2%owns_snoc; [eauto|done..].
    + intros k pc id ch Hk Hreg.
      destruct (decide (k < length (calls s))%nat).
      * rewrite lookup_app_l in Hk by done. eauto.
      * rewrite lookup_app_r in Hk by lia.
        destruct (k - length (calls s))%nat; simplify_eq/=.
    + intros id ch Hl. destruct (Hto _ _ Hl) as [k Ho].
      exists k. by apply owns_snoc.
    + intros ch buf m Hl Hin. destruct (Hc _ _ _ Hl Hin) as [k Ho].
      exists k. by apply owns_snoc.
    + intros ch m Hrl. destruct (Hr _ _ Hrl) as [k Ho].
      exists k. by apply owns_snoc.
    + intros k pc m Hk Hr0.
      destruct (decide (k < length (calls s))%nat).
      * rewrite lookup_app_l in Hk by done. eauto.
      * rewrite lookup_app_r in Hk by lia.
        destruct (k - length (calls s))%nat; simplify_eq/=.
    + rewrite in_flight_app. simpl. rewrite Hcnt. f_equal. lia.
  - (* Call_step *)
    destruct (calls s !! k) as [pc|] eqn:Hk; [|done].
    by eapply table_inv_Call_next.
  - (* Call_messageOut *)
    destruct (calls s !! k) as [[]|] eqn:Hk, (wl s); simplify_eq.
    eapply (table_inv_same_reg _ _ k _ (C_select _ _)); eauto; simpl; try done.
    + intros id ch0 Hreg. apply (Ht _ _ _ _ Hk Hreg).
    + count_tac Hk Hcnt.
  - (* Call_respCh *)
    destruct (calls s !! k) as [[| | | |req respCh| | | |]|] eqn:Hk; try done.
    destruct (chans s !! respCh) as [[|resp rest]|] eqn:Hbuf; simplify_eq.
    eapply (table_inv_same_reg _ _ k _ (C_defer_Delete _ _ _)); eauto; simpl;
      rewrite ?length_insert; try done.
    + intros ch buf m [(-> & <- & _)|[Hne Hl]]%list_lookup_insert_Some Hin;
        [|by eauto].
      eapply Hc; [done|]. by apply elem_of_cons; right.
    + intros id ch0 Hreg. apply (Ht _ _ _ _ Hk Hreg).
    + intros m [= <-].
      destruct (Hc _ _ resp Hbuf) as [k1 Ho]; [by apply elem_of_cons; left|].
      assert (owns (calls s) k (Id req) respCh) as Hok
        by (apply owns_lookup; eauto).
      assert (k1 = k) as -> by (eapply Hi; eauto).
      destruct (owns_fun _ _ _ _ _ _ Ho Hok) as [-> _]. eauto.
    + count_tac Hk Hcnt.
  - (* Call_timeout *)
    destruct (calls s !! k) as [[]|] eqn:Hk; simplify_eq.
    eapply (table_inv_same_reg _ _ k _ (C_defer_Delete _ _ _)); eauto; simpl; try done.
    + intros id ch0 Hreg. apply (Ht _ _ _ _ Hk Hreg).
    + count_tac Hk Hcnt.
Qed.

Lemma table_inv_run tr s s' :
  table_inv s → run rev tr s = Some s' → table_inv s'.
Proof.
  revert s. induction tr as [|e tr IH]; intros s Hinv Hrun; simpl in Hrun.
  - by simplify_eq.
  - destruct (step rev e s) as [s1|] eqn:Hstep; [|done].
    eauto using table_inv_step.
Qed.

Lemma table_inv_reachable maxPendingCall id tr s :
  run rev tr (makeClient maxPendingCall id) = Some s → table_inv s.
Proof. apply table_inv_run, table_inv_makeClient. Qed.

End Invariant.

(** ** Stepping one caller *)

Section CallSteps.

Context `{D : Deps} (rev : Revision).

Lemma run_cons e tr (s s1 : State) :
  step rev e s = Some s1 → run rev (e :: tr) s = run rev tr s1.
Proof. intros H. simpl. by rewrite H. Qed.

Lemma calls_set_call_lookup (s : State) k pc pc0 :
  calls s !! k = Some pc0 → calls (set_call k pc s) !! k = Some pc.
Proof.
  intros Hk. simpl. apply list_lookup_insert_eq. by eapply lookup_lt_Some.
Qed.

Lemma step_Call_step (s : State) k pc :
  calls s !! k = Some pc → step rev (Call_step k) s = Call_next k pc s.
Proof. intros Hk. simpl. by rewrite Hk. Qed.

(** The deferred function: [Delete], then [Add(-1)], then the return. *)
Lemma run_deferred (s : State) k req respCh ret :
  calls s !! k = Some (C_defer_Delete req respCh ret) →
  ∃ s', run rev [Call_step k; Call_step k] s = Some s' ∧
        calls s' !! k = Some (C_returned req respCh ret) ∧
        pendingCalls s' = delete (Id req) (pendingCalls s) ∧
        pendingCnt s' = int32 (pendingCnt s - 1) ∧
        chans s' = chans s ∧ rl s' = rl s ∧ wl s' = wl s.
Proof.
  intros Hk. eexists. split.
  - erewrite run_cons by (by rewrite (step_Call_step _ _ _ Hk)).
    erewrite run_cons; [reflexivity|].
    by erewrite step_Call_step by (by eapply calls_set_call_lookup).
  - simpl. rewrite list_insert_insert_eq.
    split; [|done]. apply list_lookup_insert_eq. by eapply lookup_lt_Some.
Qed.

End CallSteps.

(** * The claims *)

Section CorrelationClaims.

Context `{D : Deps} (rev : Revision).
Hypothesis uuid_inj : Inj (=) (=) uuid_NewString.

(** C1. Whatever the schedule of any number of concurrent callers and
    whatever the order of the peer's answers: a caller that returns a
    response returns one whose id is the id of its own request; two callers
    never share an id or a channel; and every message that sits in a caller's
    channel, or that [readLoop] is about to send into it, carries that
    caller's id, so a response reaches at most one waiter. *)
Theorem Call_receives_matching_response maxPendingCall id tr s :
  run rev tr (makeClient maxPendingCall id) = Some s →
  (∀ k req respCh resp,
     calls s !! k = Some (C_returned req respCh (inl resp)) → Id resp = Id req) ∧
  (∀ k1 k2 pc1 pc2 id1 ch1 id2 ch2,
     calls s !! k1 = Some pc1 → calls s !! k2 = Some pc2 →
     call_reg pc1 = Some (id1, ch1) → call_reg pc2 = Some (id2, ch2) →
     k1 ≠ k2 → id1 ≠ id2 ∧ ch1 ≠ ch2) ∧
  (∀ k pc id' ch,
     calls s !! k = Some pc → call_reg pc = Some (id', ch) →
     (∀ buf m, chans s !! ch = Some buf → m ∈ buf → Id m = id') ∧
     (∀ m, rl s = RL_callCh_send ch m → Id m = id')).
Proof.
  intros Hrun.
  pose proof (table_inv_reachable rev uuid_inj _ _ _ _ Hrun)
    as [Hf Hi Ht Hto Hc Hr Hret Hcnt].
  split; [|split].
  - intros k req respCh resp Hk.
    destruct (Hret _ _ resp Hk) as [ch Hreg]; [done|]. simpl in Hreg. congruence.
  - intros k1 k2 pc1 pc2 id1 ch1 id2 ch2 Hk1 Hk2 Hr1 Hr2 Hne.
    assert (owns (calls s) k1 id1 ch1) as Ho1 by (apply owns_lookup; eauto).
    assert (owns (calls s) k2 id2 ch2) as Ho2 by (apply owns_lookup; eauto).
    split; intros Heq; apply Hne; eapply Hi; eauto.
  - intros k pc id' ch Hk Hreg.
    assert (owns (calls s) k id' ch) as Ho by (apply owns_lookup; eauto).
    split.
    + intros buf m Hbuf Hin. destruct (Hc _ _ _ Hbuf Hin) as [k1 Ho1].
      assert (k1 = k) as -> by (eapply Hi; eauto).
      by destruct (owns_fun _ _ _ _ _ _ Ho1 Ho).
    + intros m Hrl. destruct (Hr _ _ Hrl) as [k1 Ho1].
      assert (k1 = k) as -> by (eapply Hi; eauto).
      by destruct (owns_fun _ _ _ _ _ _ Ho1 Ho).
Qed.

(** C3. Along every schedule the counter is the number of callers between
    their [Add(1)] and their deferred [Add(-1)].  A caller waiting in its
    [select] leaves by the timer or by a delivered response, and either way
    its deferred function deletes its entry and decrements the counter once
    before it returns.  Once a caller has returned its id is not in the
    table, and a response frame with that id read afterwards changes
    nothing: no error, no close signal, no entry. *)
Theorem Call_cleans_up maxPendingCall id tr s k req respCh :
  run rev tr (makeClient maxPendingCall id) = Some s →
  pendingCnt s = int32 (Z.of_nat (in_flight (calls s))) ∧
  (calls s !! k = Some (C_select req respCh) →
   (∃ s', run rev [Call_timeout k; Call_step k; Call_step k] s = Some s' ∧
          calls s' !! k = Some (C_returned req respCh (inr ErrTimeout)) ∧
          pendingCalls s' = delete (Id req) (pendingCalls s) ∧
          pendingCnt s' = int32 (pendingCnt s - 1)) ∧
   (∀ resp rest, chans s !! respCh = Some (resp :: rest) →
      ∃ s', run rev [Call_respCh k; Call_step k; Call_step k] s = Some s' ∧
            calls s' !! k = Some (C_returned req respCh (inl resp)) ∧
            pendingCalls s' = delete (Id req) (pendingCalls s) ∧
            pendingCnt s' = int32 (pendingCnt s - 1))) ∧
  (∀ ret, calls s !! k = Some (C_returned req respCh ret) →
     pendingCalls s !! Id req = None ∧
     ∀ msg message,
       rl s = RL_ReadMessage →
       protocol_ToMessage msg = ToMessage_ok (Some message) →
       Typ message = Resp → Id message = Id req →
       step rev (ReadMessage (Some msg)) s = Some s).
Proof.
  intros Hrun.
  pose proof (table_inv_reachable rev uuid_inj _ _ _ _ Hrun)
    as [Hf Hi Ht Hto Hc Hr Hret Hcnt].
  split; [done|split].
  - intros Hk. split.
    + destruct (run_deferred rev (set_call k (C_defer_Delete req respCh (inr ErrTimeout)) s)
                  k req respCh (inr ErrTimeout)) as (s' & Hs' & Hcalls & Htab & Hpc & _).
      { by eapply calls_set_call_lookup. }
      exists s'. split; [|done].
      erewrite run_cons; [done|]. simpl. by rewrite Hk.
    + intros resp rest Hbuf.
      destruct (run_deferred rev
                  (set_call k (C_defer_Delete req respCh (inl resp))
                     (set_chans (<[respCh := rest]> (chans s)) s))
                  k req respCh (inl resp)) as (s' & Hs' & Hcalls & Htab & Hpc & _).
      { by eapply calls_set_call_lookup. }
      exists s'. split; [|done].
      erewrite run_cons; [done|]. simpl. by rewrite Hk, Hbuf.
  - intros ret Hk.
    assert (pendingCalls s !! Id req = None) as Hnone by apply (Ht _ _ _ _ Hk eq_refl).
    split; [done|].
    intros msg message Hrl Hdec Hty Hid. simpl. rewrite Hrl.
    unfold readLoop_body. by rewrite Hdec, Hty, Hid, Hnone.
Qed.

(** C10. A caller at the entry of [Call], below capacity.  If
    [json.Marshal] fails, its single step returns the error and changes
    nothing but the caller itself.  If the payload marshals and encoding the
    request fails, the caller runs [Store], [Add(1)], the failing [ToBytes]
    and its deferred function, and returns the error with the table and the
    counter exactly as they were; its id is not in the table. *)
Theorem Call_local_failure maxPendingCall id tr s k action data :
  run rev tr (makeClient maxPendingCall id) = Some s →
  calls s !! k = Some (C_entry action data) →
  ¬ int32 (maxPendingCalls s) ≤ pendingCnt s →
  (json_Marshal data = None →
   step rev (Call_step k) s =
     Some (set_call k (C_returned_early (inr ErrMarshal)) s)) ∧
  (∀ raw, json_Marshal data = Some raw →
     let req := {| Id := uuid_NewString (uuid_next s); Typ := Req;
                   Action := action; Data := raw |} in
     Message_ToBytes req = None →
     ∃ s', run rev [Call_step k; Call_step k; Call_step k; Call_step k; Call_step k] s
             = Some s' ∧
           calls s' !! k = Some (C_returned req (length (chans s)) (inr ErrToBytes)) ∧
           pendingCalls s' = pendingCalls s ∧
           pendingCalls s' !! Id req = None ∧
           pendingCnt s' = pendingCnt s).
Proof.
  intros Hrun Hk Hcap.
  pose proof (table_inv_reachable rev uuid_inj _ _ _ _ Hrun)
    as [Hf Hi Ht Hto Hc Hr Hret Hcnt].
  split.
  - intros Hm. rewrite (step_Call_step _ _ _ _ Hk). simpl.
    by rewrite bool_decide_eq_false_2, Hm.
  - intros raw Hm req Henc.
    assert (pendingCalls s !! Id req = None) as Hfresh.
    { destruct (pendingCalls s !! Id req) as [ch|] eqn:Hl; [|done].
      destruct (Hto _ _ Hl) as [k1 Ho].
      destruct (Hf _ _ _ Ho) as [(n & Hn & Heq%uuid_inj) _]. lia. }
    set (s1 := set_call k (C_Store req (length (chans s)))
                 (set_chans (chans s ++ [[]]) (set_uuid_next (S (uuid_next s)) s))).
    set (s2 := set_call k (C_Add req (length (chans s)))
                 (set_pendingCalls (<[Id req := length (chans s)]> (pendingCalls s1)) s1)).
    set (s3 := set_call k (C_defer_Delete req (length (chans s)) (inr ErrToBytes))
                 (set_pendingCnt (int32 (pendingCnt s2 + 1)) s2)).
    assert (step rev (Call_step k) s = Some s1) as H1.
    { rewrite (step_Call_step _ _ _ _ Hk). simpl.
      by rewrite bool_decide_eq_false_2, Hm. }
    assert (calls s1 !! k = Some (C_Store req (length (chans s)))) as Hk1
      by (by eapply calls_set_call_lookup).
    assert (step rev (Call_step k) s1 = Some s2) as H2
      by (by rewrite (step_Call_step _ _ _ _ Hk1)).
    assert (calls s2 !! k = Some (C_Add req (length (chans s)))) as Hk2
      by (by eapply calls_set_call_lookup).
    assert (step rev (Call_step k) s2 = Some s3) as H3.
    { rewrite (step_Call_step _ _ _ _ Hk2). simpl Call_next.
      by rewrite Henc. }
    assert (calls s3 !! k = Some (C_defer_Delete req (length (chans s)) (inr ErrToBytes)))
      as Hk3 by (by eapply calls_set_call_lookup).
    destruct (run_deferred rev s3 k req _ _ Hk3)
      as (s' & Hs' & Hcalls & Htab & Hpc & _).
    exists s'. split; [|split; [done|]].
    + by rewrite (run_cons _ _ _ _ _ H1), (run_cons _ _ _ _ _ H2), (run_cons _ _ _ _ _ H3).
    + assert (pendingCalls s' = pendingCalls s) as Heq.
      { rewrite Htab. simpl. rewrite delete_insert_eq. by apply delete_id. }
      split; [done|]. split; [by rewrite Heq|].
      rewrite Hpc. simpl. rewrite Hcnt.
      rewrite int32_add_l, int32_sub_l. f_equal. lia.
Qed.

End CorrelationClaims.

Section WorkerClaims.

Context `{D : Deps} (rev : Revision).

Local Ltac step_cases Hstep :=
  simpl in Hstep;
  unfold readLoop_body, writeLoop_write, writeLoop_pong, writeLoop_closeFrame,
    Call_next in Hstep;
  repeat match type of Hstep with
         | context [match ?x with _ => _ end] => destruct x eqn:?
         end;
  simplify_eq; simpl.

(** *** Helpers on single steps *)

Lemma pongs_snoc ws w :
  pongs (ws ++ [w]) = (pongs ws + if is_pong w then 1 else 0)%nat.
Proof.
  unfold pongs. rewrite filter_app, length_app. f_equal.
  rewrite filter_cons, filter_nil. by destruct (is_pong w).
Qed.

Lemma step_pongs e (s s' : State) :
  step rev e s = Some s' →
  (pongs (conn_writes s') + pong_due s' =
   pongs (conn_writes s) + pong_due s + if is_handoff e then 1 else 0)%nat.
Proof.
  intros Hstep. unfold pong_due.
  destruct e; step_cases Hstep; rewrite ?pongs_snoc; simpl;
    repeat match goal with H : wl _ = _ |- _ => rewrite H end; simpl; lia.
Qed.

Lemma run_pongs tr (s s' : State) :
  run rev tr s = Some s' →
  (pongs (conn_writes s') + pong_due s' =
   pongs (conn_writes s) + pong_due s + handoffs tr)%nat.
Proof.
  revert s. induction tr as [|e tr IH]; intros s Hrun; simpl in Hrun.
  - simplify_eq. unfold handoffs. simpl. lia.
  - destruct (step rev e s) as [s1|] eqn:Hstep; [|done].
    rewrite (IH _ Hrun), (step_pongs _ _ _ Hstep).
    unfold handoffs. rewrite filter_cons. destruct (is_handoff e); simpl; lia.
Qed.

Lemma step_sole_writer e (s s' : State) :
  step rev e s = Some s' → writes_transport e = false →
  conn_writes s' = conn_writes s.
Proof. intros Hstep He. destruct e; try done; by step_cases Hstep. Qed.

Lemma step_removed e (s s' : State) :
  step rev e s = Some s' →
  c_id s' = c_id s ∧
  ((removed s' = removed s ∧ exited_workers s' = exited_workers s) ∨
   (removed s' = removed s ++ [c_id s] ∧ exited_workers s' = S (exited_workers s))).
Proof.
  intros Hstep. unfold exited_workers.
  destruct e; step_cases Hstep;
    repeat match goal with
           | H : rl _ = _ |- _ => rewrite H
           | H : wl _ = _ |- _ => rewrite H
           end; simpl; (split; [done|]); first [by left | right; split; [done|lia]].
Qed.

Lemma run_removed tr (s s' : State) :
  run rev tr s = Some s' →
  removed s = replicate (exited_workers s) (c_id s) →
  c_id s' = c_id s ∧ removed s' = replicate (exited_workers s') (c_id s').
Proof.
  revert s. induction tr as [|e tr IH]; intros s Hrun Hs; simpl in Hrun.
  - by simplify_eq.
  - destruct (step rev e s) as [s1|] eqn:Hstep; [|done].
    destruct (step_removed _ _ _ Hstep) as [Hid Hcases].
    destruct (IH _ Hrun) as [Hid' Hr'].
    + destruct Hcases as [[Hr He]|[Hr He]]; rewrite Hr, He, Hid, Hs; [done|].
      by rewrite replicate_S_end.
    + split; [congruence|done].
Qed.

(** At capacity [Call] returns the error in its first step and touches
    nothing but the caller itself. *)
Lemma Call_at_capacity (s : State) k action data :
  calls s !! k = Some (C_entry action data) →
  int32 (maxPendingCalls s) ≤ pendingCnt s →
  step rev (Call_step k) s =
    Some (set_call k (C_returned_early (inr ErrMaxPending)) s).
Proof.
  intros Hk Hcap. simpl. rewrite Hk. simpl. by rewrite bool_decide_eq_true_2.
Qed.

(** After the close frame [writeLoop] is back at its [select], whether the
    write succeeded or not. *)
Lemma writeLoop_closeFrame_loops (s : State) ok :
  wl s = WL_closeFrame →
  ∃ s', step rev (WriteLoop_closeFrame ok) s = Some s' ∧ wl s' = WL_select ∧
        conn_writes s' = conn_writes s ++ [(CloseMessage CloseNormalClosure EmptyString, ok)] ∧
        netConn_closed s' = if ok then netConn_closed s else true.
Proof.
  intros Hwl. simpl. rewrite Hwl. eexists. split; [done|].
  unfold writeLoop_closeFrame. by destruct ok.
Qed.

(** The response of a served request: the action is always the request's,
    the id is the request's in the first listing and a new one in the
    second. *)
Lemma readLoop_serves (s : State) msg message h respData msgOut :
  rl s = RL_ReadMessage →
  protocol_ToMessage msg = ToMessage_ok (Some message) →
  Typ message = Req →
  getHandler (Action message) = Some h → h message = Some respData →
  let resp := response rev message respData (uuid_NewString (uuid_next s)) in
  Message_ToBytes resp = Some msgOut →
  rl <$> step rev (ReadMessage (Some msg)) s = Some (RL_messageOut_send msgOut) ∧
  Action resp = Action message ∧
  Id resp = match rev with
            | Rev1 => Id message
            | Rev2 => uuid_NewString (uuid_next s)
            end.
Proof.
  intros Hrl Hdec Hty Hh Hr resp Henc. split; [|done].
  simpl. rewrite Hrl. simpl. unfold readLoop_body.
  rewrite Hdec, Hty, Hh, Hr. fold resp. rewrite Henc. by destruct rev.
Qed.

(** *** C5, C7, C8, C9 *)

(** C5 (amended). Each worker calls [s.Remove(c.id)] once, when it exits:
    along every schedule the registry has seen exactly one call per exited
    worker, each with the id of this connection; so none while both run, one
    while a single worker has exited, two when both have. *)
Theorem Remove_once_per_exited_worker maxPendingCall id tr s :
  run rev tr (makeClient maxPendingCall id) = Some s →
  removed s = replicate (exited_workers s) id ∧ (exited_workers s ≤ 2)%nat.
Proof.
  intros Hrun.
  destruct (run_removed _ _ _ Hrun) as [Hid Hr]; [done|].
  rewrite Hr, Hid. split; [done|].
  unfold exited_workers. destruct (rl s), (wl s); simpl; lia.
Qed.

(** C7 (amended). A request whose action has no handler: the first listing
    skips it, the state is untouched and the loop reads the next frame; the
    second listing goes to raise the close signal.  Neither builds a
    response. *)
Theorem unknown_action_policy (s : State) msg message :
  rl s = RL_ReadMessage →
  protocol_ToMessage msg = ToMessage_ok (Some message) →
  Typ message = Req → getHandler (Action message) = None →
  step rev (ReadMessage (Some msg)) s =
    Some (match rev with
          | Rev1 => s
          | Rev2 => set_rl RL_closeCh_send s
          end).
Proof.
  intros Hrl Hdec Hty Hh. simpl. rewrite Hrl. unfold readLoop_body.
  by rewrite Hdec, Hty, Hh.
Qed.

(** C8 (amended). A frame that decodes to a nil envelope is skipped by the
    first listing (same state, next frame) and is fatal in the second.  A
    frame that fails to decode is fatal in both: the worker goes to raise the
    close signal and never reads again; with room in the close channel the
    signal is raised and the worker exits through its deferred [Remove]. *)
Theorem nil_and_malformed_frames (s : State) msg :
  rl s = RL_ReadMessage →
  (protocol_ToMessage msg = ToMessage_ok None →
   step rev (ReadMessage (Some msg)) s =
     Some (match rev with
           | Rev1 => s
           | Rev2 => set_rl RL_closeCh_send s
           end)) ∧
  (protocol_ToMessage msg = ToMessage_err →
   step rev (ReadMessage (Some msg)) s = Some (set_rl RL_closeCh_send s) ∧
   (closeCh s = [] →
    run rev [ReadMessage (Some msg); ReadLoop_closeCh; ReadLoop_defer] s =
      Some (set_rl RL_exited
              (set_removed (removed s ++ [c_id s]) (set_closeCh [true] s))))).
Proof.
  intros Hrl. split.
  - intros Hdec. simpl. rewrite Hrl. unfold readLoop_body. by rewrite Hdec.
  - intros Hdec. split.
    + simpl. rewrite Hrl. unfold readLoop_body. by rewrite Hdec.
    + intros Hclose. simpl. rewrite Hrl. unfold readLoop_body. rewrite Hdec.
      simpl. by rewrite Hclose.
Qed.

(** C9. Along every schedule the pong writes issued on the transport, plus
    the one [writeLoop] owes while it holds a ping signal, are as many as the
    ping signals it has received.  Only [writeLoop] events write to the
    transport.  A ping callback waiting at its send gets past it only by the
    rendezvous with the [select] of [writeLoop], which writes nothing; and
    [writeLoop] leaves the ping case only by one [WriteMessage] of a pong. *)
Theorem ping_yields_one_pong maxPendingCall id tr s :
  run rev tr (makeClient maxPendingCall id) = Some s →
  (pongs (conn_writes s) + pong_due s = handoffs tr)%nat ∧
  (∀ e (s1 s2 : State),
     step rev e s1 = Some s2 → conn_writes s2 ≠ conn_writes s1 →
     writes_transport e = true) ∧
  (∀ e (s1 s2 : State) i appData,
     pings s1 !! i = Some (PH_pingCh_send appData) →
     step rev e s1 = Some s2 →
     pings s2 !! i ≠ Some (PH_pingCh_send appData) →
     e = Ping_pingCh i ∧ wl s1 = WL_select ∧ wl s2 = WL_pong ∧
     conn_writes s2 = conn_writes s1) ∧
  (∀ e (s1 s2 : State),
     wl s1 = WL_pong → step rev e s1 = Some s2 → wl s2 ≠ WL_pong →
     ∃ ok, e = WriteLoop_pong ok ∧
           conn_writes s2 = conn_writes s1 ++ [(PongMessage [], ok)]).
Proof.
  intros Hrun. split; [|split; [|split]].
  - rewrite (run_pongs _ _ _ Hrun). simpl. lia.
  - intros e s1 s2 Hstep Hne.
    destruct (writes_transport e) eqn:He; [done|].
    by rewrite (step_sole_writer _ _ _ Hstep He) in Hne.
  - intros e s1 s2 i appData Hi Hstep Hne.
    destruct e; step_cases Hstep; try done; simpl in Hne.
    + exfalso. apply Hne. rewrite lookup_app_l; [done|]. by eapply lookup_lt_Some.
    + destruct (decide (i = i0)) as [->|Hii]; [done|].
      exfalso. apply Hne. by rewrite list_lookup_insert_ne.
    + exfalso. destruct (decide (i = i0)) as [->|Hii]; [congruence|].
      apply Hne. by rewrite list_lookup_insert_ne.
    + exfalso. destruct (decide (i = i0)) as [->|Hii]; [congruence|].
      apply Hne. by rewrite list_lookup_insert_ne.
  - intros e s1 s2 Hwl Hstep Hne.
    destruct e; step_cases Hstep; try congruence; eauto.
Qed.

End WorkerClaims.

(** ** The claims on concrete schedules *)

(** C1 on two concurrent callers answered in reverse order: each returns
    the response that carries its own id. *)
Lemma Call_receives_matching_response_witness :
  let s := Demo.final Rev1 Demo.two_calls 5 in
  run Rev1 Demo.two_calls (makeClient 5 "conn") = Some s ∧
  calls s =
    [ C_returned {| Id := "call-0"; Typ := Req; Action := "A"; Data := Demo.B "1" |} 0
        (inl {| Id := "call-0"; Typ := Resp; Action := "A"; Data := Demo.B "ra" |});
      C_returned {| Id := "call-1"; Typ := Req; Action := "B"; Data := Demo.B "2" |} 1
        (inl {| Id := "call-1"; Typ := Resp; Action := "B"; Data := Demo.B "rb" |}) ] ∧
  (∀ k req respCh resp,
     calls s !! k = Some (C_returned req respCh (inl resp)) → Id resp = Id req).
Proof.
  intros s. split; [vm_compute; reflexivity|].
  split; [vm_compute; reflexivity|].
  apply (Call_receives_matching_response (D := Demo.deps) Rev1 Demo_uuid_inj
           5 "conn" Demo.two_calls s).
  vm_compute; reflexivity.
Defined.

(** C2, failing schedule.  [maxPendingCalls] is 1.  Both callers load the
    counter, read 0 and pass the check of line 205 before either reaches
    [Add(1)]; after both increments the counter is 2. *)
Theorem pendingCnt_exceeds_maxPendingCalls (rev : Revision) :
  (λ s, (maxPendingCalls s, pendingCnt s, size (pendingCalls s)))
    <$> run (D := Demo.deps) rev Demo.race (makeClient 1 "conn")
  = Some (1, 2, 2%nat).
Proof. destruct rev; vm_compute; reflexivity. Qed.

(** C3 on a call that times out: the table is empty and the counter zero
    afterwards, and a reply that arrives late is dropped. *)
Lemma Call_cleans_up_witness :
  let waiting := Demo.final Rev1 (take 6 Demo.timed_out) 5 in
  let s := Demo.final Rev1 Demo.timed_out 5 in
  run Rev1 (take 6 Demo.timed_out) (makeClient 5 "conn") = Some waiting ∧
  run Rev1 [Call_timeout 0; Call_step 0; Call_step 0] waiting = Some s ∧
  pendingCalls s = ∅ ∧ pendingCnt s = 0 ∧
  step Rev1 (ReadMessage (Some (Demo.reply "call-0" "echo" "late"))) s = Some s.
Proof.
  intros waiting s.
  split; [vm_compute; reflexivity|]. split; [vm_compute; reflexivity|].
  split; [vm_compute; reflexivity|]. split; [vm_compute; reflexivity|].
  destruct (Call_cleans_up (D := Demo.deps) Rev1 Demo_uuid_inj 5 "conn"
              Demo.timed_out s 0
              {| Id := "call-0"; Typ := Req; Action := "echo";
                 Data := Demo.B "{x:1}" |} 0) as (_ & _ & Hlate);
    [vm_compute; reflexivity|].
  destruct (Hlate (inr ErrTimeout)) as [_ Hdrop]; [vm_compute; reflexivity|].
  apply (Hdrop _ {| Id := "call-0"; Typ := Resp; Action := "echo";
                   Data := Demo.B "late" |}); vm_compute; reflexivity.
Defined.

(** C4, failing schedule.  A read error raises the close signal and
    [writeLoop] writes the close frame; it is then back at its [select], and
    when the application calls afterwards it writes the request to the
    transport. *)
Theorem writeLoop_writes_after_close (rev : Revision) :
  (λ s, (wl s, fst <$> conn_writes s))
    <$> run (D := Demo.deps) rev Demo.call_after_close (makeClient 5 "conn")
  = Some (WL_select,
          [CloseMessage CloseNormalClosure EmptyString;
           TextMessage (Demo.request "call-0" "echo" "1")]).
Proof. destruct rev; vm_compute; reflexivity. Qed.

(** C5 as worded fails: a malformed frame closes the connection, the write
    for a later call fails, both workers exit and each has called
    [Remove]. *)
Lemma Remove_called_twice :
  ¬ Remove_exactly_once (D := Demo.deps) Rev1 5 "conn".
Proof.
  intros H.
  assert (removed (Demo.final Rev1 Demo.malformed_then_call 5) = ["conn"]) as Hone
    by (apply (H Demo.malformed_then_call); vm_compute; reflexivity).
  vm_compute in Hone. discriminate Hone.
Qed.

Lemma Remove_once_per_exited_worker_witness :
  let s := Demo.final Rev1 (take 3 Demo.malformed_then_call) 5 in
  exited_workers s = 1%nat ∧ removed s = ["conn"].
Proof.
  intros s. split; [vm_compute; reflexivity|].
  destruct (Remove_once_per_exited_worker (D := Demo.deps) Rev1 5 "conn"
              (take 3 Demo.malformed_then_call) s) as [Hr _];
    [vm_compute; reflexivity|].
  rewrite Hr. vm_compute; reflexivity.
Defined.

(** C6, failing input.  The request [abc] for [echo] is served; the second
    listing enqueues a response whose id is the new [call-0], the first
    listing one whose id is [abc]. *)
Theorem response_id_in_second_listing :
  rl <$> step (D := Demo.deps) Rev2 (ReadMessage (Some Demo.echo_request))
           (makeClient 5 "conn")
  = Some (RL_messageOut_send (Demo.reply "call-0" "echo" "hi")) ∧
  rl <$> step (D := Demo.deps) Rev1 (ReadMessage (Some Demo.echo_request))
           (makeClient 5 "conn")
  = Some (RL_messageOut_send (Demo.reply "abc" "echo" "hi")).
Proof. split; vm_compute; reflexivity. Qed.

(** C7 as worded fails: the first listing reads a request for an action
    without handler and goes on as if nothing had arrived. *)
Lemma unknown_action_ignored :
  ¬ unknown_action_closes_or_answers (D := Demo.deps) Rev1.
Proof.
  intros H.
  destruct (H (makeClient 5 "conn") Demo.unknown_request
              {| Id := "r-1"; Typ := Req; Action := "nope"; Data := [] |}
              (makeClient 5 "conn")) as [Hrl|[msgOut Hrl]];
    try (vm_compute; reflexivity); simpl in Hrl; discriminate Hrl.
Qed.

Lemma unknown_action_policy_witness :
  step (D := Demo.deps) Rev1 (ReadMessage (Some Demo.unknown_request))
    (makeClient 5 "conn") = Some (makeClient 5 "conn") ∧
  step (D := Demo.deps) Rev2 (ReadMessage (Some Demo.unknown_request))
    (makeClient 5 "conn") = Some (set_rl RL_closeCh_send (makeClient 5 "conn")).
Proof.
  split.
  - apply (unknown_action_policy (D := Demo.deps) Rev1 (makeClient 5 "conn")
             Demo.unknown_request
             {| Id := "r-1"; Typ := Req; Action := "nope"; Data := [] |});
      vm_compute; reflexivity.
  - apply (unknown_action_policy (D := Demo.deps) Rev2 (makeClient 5 "conn")
             Demo.unknown_request
             {| Id := "r-1"; Typ := Req; Action := "nope"; Data := [] |});
      vm_compute; reflexivity.
Defined.

(** C8 as worded fails: in the second listing a nil envelope sends the
    worker to raise the close signal. *)
Lemma nil_envelope_fatal_in_second_listing :
  ¬ nil_skipped_decode_error_fatal (D := Demo.deps) Rev2.
Proof.
  intros H.
  destruct (H (makeClient 5 "conn") []) as [Hnil _]; [reflexivity|].
  specialize (Hnil eq_refl).
  apply (f_equal (fmap rl)) in Hnil. vm_compute in Hnil. discriminate Hnil.
Qed.

Lemma nil_and_malformed_frames_witness :
  step (D := Demo.deps) Rev1 (ReadMessage (Some [])) (makeClient 5 "conn")
    = Some (makeClient 5 "conn") ∧
  (rl <$> run (D := Demo.deps) Rev1
            [ReadMessage (Some Demo.garbage); ReadLoop_closeCh; ReadLoop_defer]
            (makeClient 5 "conn")) = Some RL_exited.
Proof.
  destruct (nil_and_malformed_frames (D := Demo.deps) Rev1 (makeClient 5 "conn") [])
    as [Hnil _]; [reflexivity|].
  destruct (nil_and_malformed_frames (D := Demo.deps) Rev1 (makeClient 5 "conn")
              Demo.garbage) as [_ Herr]; [reflexivity|].
  split; [apply Hnil; reflexivity|].
  destruct Herr as [_ Hrun]; [vm_compute; reflexivity|].
  rewrite Hrun; reflexivity.
Defined.

(** C9 on two pings interleaved with a call: two ping signals received,
    two pong writes. *)
Lemma ping_yields_one_pong_witness :
  let s := Demo.final Rev2 Demo.two_pings 5 in
  handoffs Demo.two_pings = 2%nat ∧ pongs (conn_writes s) = 2%nat.
Proof.
  intros s. split; [vm_compute; reflexivity|].
  destruct (ping_yields_one_pong (D := Demo.deps) Rev2 5 "conn" Demo.two_pings s)
    as [Hcount _]; [vm_compute; reflexivity|].
  assert (pong_due s = 0%nat) as Hdue by (vm_compute; reflexivity).
  assert (handoffs Demo.two_pings = 2%nat) as Hh by (vm_compute; reflexivity).
  rewrite Hdue, Hh, Nat.add_0_r in Hcount. exact Hcount.
Defined.

(** C10 on a payload that does not marshal and on a request that does not
    encode. *)
Lemma Call_local_failure_witness :
  let s1 := Demo.final Rev1 Demo.bad_payload 5 in
  let s2 := Demo.final Rev1 Demo.bad_request 5 in
  step Rev1 (Call_step 0) s1 =
    Some (set_call 0 (C_returned_early (inr ErrMarshal)) s1) ∧
  ∃ s' : State (D := Demo.deps),
        run Rev1 [Call_step 0; Call_step 0; Call_step 0; Call_step 0; Call_step 0] s2
          = Some s' ∧
        calls s' !! 0%nat =
          Some (C_returned {| Id := "call-0"; Typ := Req; Action := EmptyString;
                              Data := Demo.B "1" |} 0 (inr ErrToBytes)) ∧
        pendingCalls s' = pendingCalls s2 ∧ pendingCnt s' = pendingCnt s2.
Proof.
  intros s1 s2. split.
  - destruct (Call_local_failure (D := Demo.deps) Rev1 Demo_uuid_inj 5 "conn"
                Demo.bad_payload s1 0 "echo" Demo.unmarshallable) as [Hm _];
      [vm_compute; reflexivity| vm_compute; reflexivity
      | vm_compute; intros Hle; exact (Hle eq_refl) |].
    apply Hm; reflexivity.
  - destruct (Call_local_failure (D := Demo.deps) Rev1 Demo_uuid_inj 5 "conn"
                Demo.bad_request s2 0 EmptyString (Demo.data "1")) as [_ He];
      [vm_compute; reflexivity| vm_compute; reflexivity
      | vm_compute; intros Hle; exact (Hle eq_refl) |].
    destruct (He (Demo.B "1")) as (s' & Hrun & Hk & Htab & _ & Hcnt);
      [reflexivity| vm_compute; reflexivity |].
    exists s'. split; [exact Hrun|]. split; [exact Hk|].
    split; [exact Htab|exact Hcnt].
Defined.

(** * Further properties of the engine *)

Section Workers.

Context `{D : Deps} (rev : Revision).

Local Ltac step_cases Hstep :=
  simpl in Hstep;
  unfold readLoop_body, writeLoop_write, writeLoop_pong, writeLoop_closeFrame,
    Call_next in Hstep;
  repeat match type of Hstep with
         | context [match ?x with _ => _ end] => destruct x eqn:?
         end;
  simplify_eq; simpl.

Local Ltac use_pcs :=
  repeat match goal with
         | H : rl _ = _ |- _ => rewrite H
         | H : wl _ = _ |- _ => rewrite H
         | H : closeCh _ = _ |- _ => rewrite H
         end.

Lemma close_frames_snoc ws w :
  close_frames (ws ++ [w]) = (close_frames ws + if is_close w then 1 else 0)%nat.
Proof.
  unfold close_frames. rewrite filter_app, length_app. f_equal.
  rewrite filter_cons, filter_nil. by destruct (is_close w).
Qed.

Lemma step_close_budget e (s s' : State) :
  step rev e s = Some s' → (close_budget s' ≤ close_budget s)%nat.
Proof.
  intros Hstep. unfold close_budget, writeLoop_serving, readLoop_may_raise.
  destruct e; step_cases Hstep; rewrite ?close_frames_snoc, ?length_app; simpl;
    use_pcs; simpl;
    first [ lia
          | destruct (wl s); simpl; lia
          | destruct (rl s); simpl; lia
          | destruct (wl s), (rl s); simpl; lia ].
Qed.

Lemma run_close_budget tr (s s' : State) :
  run rev tr s = Some s' → (close_budget s' ≤ close_budget s)%nat.
Proof.
  revert s. induction tr as [|e tr IH]; intros s Hrun; simpl in Hrun.
  - by simplify_eq.
  - destruct (step rev e s) as [s1|] eqn:Hstep; [|done].
    etrans; [by apply IH|by eapply step_close_budget].
Qed.

(** X1. Whatever happens on a connection, [writeLoop] writes at most one close
    frame: the only close signal it can ever take is the one of
    [readLoop], since its own is sent on its way out. *)
Theorem at_most_one_close_frame maxPendingCall id tr s :
  run rev tr (makeClient maxPendingCall id) = Some s →
  (close_frames (conn_writes s) ≤ 1)%nat.
Proof.
  intros Hrun. pose proof (run_close_budget _ _ _ Hrun) as Hb.
  unfold close_budget in Hb at 1. simpl in Hb.
  change (close_budget (makeClient maxPendingCall id)) with 1%nat in Hb. lia.
Qed.


Lemma step_writeLoop_exit e (s s' : State) :
  step rev e s = Some s' →
  (writeLoop_serving s = false →
   ∃ ws f, conn_writes s = ws ++ [(f, false)] ∧ is_close (f, false) = false) →
  writeLoop_serving s' = false →
  ∃ ws f, conn_writes s' = ws ++ [(f, false)] ∧ is_close (f, false) = false.
Proof.
  intros Hstep Hinv Hgone. unfold writeLoop_serving in *.
  destruct e; step_cases Hstep; simpl in Hgone;
    repeat match goal with
           | H : wl s = _ |- _ => rewrite H in Hinv; try rewrite H in Hgone
           end;
    simpl in *; try done; try (by apply Hinv); eauto.
Qed.

(** X2. [writeLoop] leaves its loop only through a failed write of a message or
    of a pong, and that write is the last thing it did on the transport:
    taking the close signal never ends it, and nothing is written once it is
    out of the loop. *)
Theorem writeLoop_leaves_on_failed_write maxPendingCall id tr s :
  run rev tr (makeClient maxPendingCall id) = Some s →
  writeLoop_serving s = false →
  ∃ ws f, conn_writes s = ws ++ [(f, false)] ∧ is_close (f, false) = false.
Proof.
  assert (∀ tr (s0 s1 : State),
            run rev tr s0 = Some s1 →
            (writeLoop_serving s0 = false →
             ∃ ws f, conn_writes s0 = ws ++ [(f, false)] ∧ is_close (f, false) = false) →
            writeLoop_serving s1 = false →
            ∃ ws f, conn_writes s1 = ws ++ [(f, false)] ∧ is_close (f, false) = false)
    as Hgen.
  { clear. intros tr. induction tr as [|e tr IH]; intros s0 s1 Hrun Hinv; simpl in Hrun.
    - by simplify_eq.
    - destruct (step rev e s0) as [s2|] eqn:Hstep; [|done].
      eapply IH; [done|]. by eapply step_writeLoop_exit. }
  intros Hrun. eapply Hgen; [done|]. done.
Qed.

Lemma step_netConn_closed e (s s' : State) :
  step rev e s = Some s' →
  (netConn_closed s = true ↔
   (CloseMessage CloseNormalClosure EmptyString, false) ∈ conn_writes s) →
  (netConn_closed s' = true ↔
   (CloseMessage CloseNormalClosure EmptyString, false) ∈ conn_writes s').
Proof.
  intros Hstep Hinv.
  destruct e; step_cases Hstep; try done;
    rewrite elem_of_app, list_elem_of_singleton;
    intuition (auto; congruence).
Qed.

(** X3. The underlying network connection is closed by this code exactly when a
    write of the close frame has failed. *)
Theorem netConn_closed_iff_close_frame_failed maxPendingCall id tr s :
  run rev tr (makeClient maxPendingCall id) = Some s →
  netConn_closed s = true ↔
  (CloseMessage CloseNormalClosure EmptyString, false) ∈ conn_writes s.
Proof.
  assert (∀ tr (s0 s1 : State),
            run rev tr s0 = Some s1 →
            (netConn_closed s0 = true ↔
             (CloseMessage CloseNormalClosure EmptyString, false) ∈ conn_writes s0) →
            (netConn_closed s1 = true ↔
             (CloseMessage CloseNormalClosure EmptyString, false) ∈ conn_writes s1))
    as Hgen.
  { clear. intros tr. induction tr as [|e tr IH]; intros s0 s1 Hrun Hinv; simpl in Hrun.
    - by simplify_eq.
    - destruct (step rev e s0) as [s2|] eqn:Hstep; [|done].
      eapply IH; [done|]. by eapply step_netConn_closed. }
  intros Hrun. eapply Hgen; [done|]. simpl. split; [done|].
  intros H. by apply elem_of_nil in H.
Qed.

End Workers.

Section Blocked.

Context `{D : Deps} (rev : Revision).

Local Ltac step_cases Hstep :=
  simpl in Hstep;
  unfold readLoop_body, writeLoop_write, writeLoop_pong, writeLoop_closeFrame,
    Call_next in Hstep;
  repeat match type of Hstep with
         | context [match ?x with _ => _ end] => destruct x eqn:?
         end;
  simplify_eq; simpl.

Lemma list_lookup_insert_other {A} (l : list A) k0 k x y :
  l !! k = Some x → l !! k0 ≠ Some x → <[k0 := y]> l !! k = Some x.
Proof.
  intros Hk Hne. rewrite list_lookup_insert_ne; [done|]. intros ->. done.
Qed.

Lemma step_serving_false e (s s' : State) :
  step rev e s = Some s' → writeLoop_serving s = false →
  writeLoop_serving s' = false.
Proof.
  intros Hstep Hgone. unfold writeLoop_serving in *.
  destruct e; step_cases Hstep;
    repeat match goal with H : wl s = _ |- _ => rewrite H in Hgone end;
    try done.
Qed.

Lemma step_blocked_Call e (s s' : State) k req respCh msgBytes :
  step rev e s = Some s' → writeLoop_serving s = false →
  calls s !! k = Some (C_messageOut_send req respCh msgBytes) →
  calls s' !! k = Some (C_messageOut_send req respCh msgBytes).
Proof.
  intros Hstep Hgone Hk. unfold writeLoop_serving in *.
  destruct e; step_cases Hstep;
    repeat match goal with H : wl s = _ |- _ => rewrite H in Hgone end;
    try done;
    try (apply list_lookup_insert_other; [done|congruence]);
    try (rewrite lookup_app_l; [done|by eapply lookup_lt_Some]).
Qed.

Lemma step_blocked_ping e (s s' : State) i appData :
  step rev e s = Some s' → writeLoop_serving s = false →
  pings s !! i = Some (PH_pingCh_send appData) →
  pings s' !! i = Some (PH_pingCh_send appData).
Proof.
  intros Hstep Hgone Hi. unfold writeLoop_serving in *.
  destruct e; step_cases Hstep;
    repeat match goal with H : wl s = _ |- _ => rewrite H in Hgone end;
    try done;
    try (apply list_lookup_insert_other; [done|congruence]);
    try (rewrite lookup_app_l; [done|by eapply lookup_lt_Some]).
Qed.

Lemma step_blocked_readLoop e (s s' : State) msgOut :
  step rev e s = Some s' → writeLoop_serving s = false →
  rl s = RL_messageOut_send msgOut → rl s' = RL_messageOut_send msgOut.
Proof.
  intros Hstep Hgone Hrl. unfold writeLoop_serving in *.
  destruct e; step_cases Hstep;
    repeat match goal with H : wl s = _ |- _ => rewrite H in Hgone end;
    try done; congruence.
Qed.

Lemma step_closeCh_full e (s s' : State) :
  step rev e s = Some s' → writeLoop_serving s = false → closeCh s ≠ [] →
  closeCh s' = closeCh s ∧
  (rl s = RL_closeCh_send → rl s' = RL_closeCh_send) ∧
  (wl s = WL_closeCh_send → wl s' = WL_closeCh_send).
Proof.
  intros Hstep Hgone Hfull. unfold writeLoop_serving in *.
  destruct e; step_cases Hstep;
    repeat match goal with H : wl s = _ |- _ => rewrite H in Hgone end;
    try done; try (split; [done|split; congruence]);
    destruct (closeCh s); done.
Qed.

(** X4. Once [writeLoop] has left its loop nobody receives from [messageOut] or
    [pingCh] any more: a caller at its send on [messageOut] stays there for
    ever, so it never reaches the [select] that arms its timer; a ping
    callback stays at its send on [pingCh]; [readLoop] stays at the send of
    a response. *)
Theorem senders_blocked_after_writeLoop tr (s s' : State) :
  run rev tr s = Some s' → writeLoop_serving s = false →
  writeLoop_serving s' = false ∧
  (∀ k req respCh msgBytes,
     calls s !! k = Some (C_messageOut_send req respCh msgBytes) →
     calls s' !! k = Some (C_messageOut_send req respCh msgBytes)) ∧
  (∀ i appData,
     pings s !! i = Some (PH_pingCh_send appData) →
     pings s' !! i = Some (PH_pingCh_send appData)) ∧
  (∀ msgOut, rl s = RL_messageOut_send msgOut → rl s' = RL_messageOut_send msgOut).
Proof.
  revert s. induction tr as [|e tr IH]; intros s Hrun Hgone; simpl in Hrun.
  - by simplify_eq.
  - destruct (step rev e s) as [s1|] eqn:Hstep; [|done].
    destruct (IH _ Hrun) as (Hg & Hc & Hp & Hr);
      [by eapply step_serving_false|].
    split; [done|].
    split; [|split];
      eauto using step_blocked_Call, step_blocked_ping, step_blocked_readLoop.
Qed.

(** X5. With [writeLoop] out of its loop and a signal left in the close channel
    nobody will ever take it: the channel stays full, and a worker that has
    reached its own [c.closeCh <- true] stays there, so [readLoop] in that
    position never returns and never runs its deferred [Remove]. *)
Theorem closeCh_send_blocked_for_ever tr (s s' : State) :
  run rev tr s = Some s' → writeLoop_serving s = false → closeCh s ≠ [] →
  closeCh s' = closeCh s ∧
  (rl s = RL_closeCh_send → rl s' = RL_closeCh_send) ∧
  (wl s = WL_closeCh_send → wl s' = WL_closeCh_send).
Proof.
  revert s. induction tr as [|e tr IH]; intros s Hrun Hgone Hfull; simpl in Hrun.
  - by simplify_eq.
  - destruct (step rev e s) as [s1|] eqn:Hstep; [|done].
    destruct (step_closeCh_full _ _ _ Hstep Hgone Hfull) as (Hc1 & Hr1 & Hw1).
    destruct (IH _ Hrun) as (Hc & Hr & Hw);
      [by eapply step_serving_false|congruence|].
    split; [congruence|]. split; auto.
Qed.

End Blocked.

Section Calls.

Context `{D : Deps} (rev : Revision).
Hypothesis uuid_inj : Inj (=) (=) uuid_NewString.

Lemma window_app (l1 l2 : list CallPc) :
  window (l1 ++ l2) = (window l1 + window l2)%nat.
Proof. induction l1 as [|pc l1 IH]; simpl; [done|]. rewrite IH. lia. Qed.

Lemma window_insert (l : list CallPc) k pc pc' :
  l !! k = Some pc →
  (window (<[k := pc']> l) + (if in_window pc then 1 else 0) =
   window l + (if in_window pc' then 1 else 0))%nat.
Proof.
  revert k. induction l as [|x l IH]; intros [|k] Hk; simplify_eq/=; [lia|].
  specialize (IH _ Hk). lia.
Qed.

Lemma in_flight_le_length (l : list CallPc) : (in_flight l ≤ length l)%nat.
Proof. induction l as [|pc l IH]; simpl; [lia|]. destruct (counted pc); lia. Qed.

Lemma in_flight_lookup (l : list CallPc) k pc :
  l !! k = Some pc → counted pc = true → (1 ≤ in_flight l)%nat.
Proof.
  revert k. induction l as [|x l IH]; intros [|k] Hk Hc; simplify_eq/=.
  - rewrite Hc. lia.
  - specialize (IH _ Hk Hc). lia.
Qed.

Lemma run_app tr1 tr2 (s s1 s2 : State) :
  run rev tr1 s = Some s1 → run rev tr2 s1 = Some s2 →
  run rev (tr1 ++ tr2) s = Some s2.
Proof.
  revert s. induction tr1 as [|e tr1 IH]; intros s H1 H2; simpl in *.
  - by simplify_eq.
  - destruct (step rev e s); [eauto|done].
Qed.

Lemma run_blocked_Call tr (s s' : State) k req respCh msgBytes :
  run rev tr s = Some s' → writeLoop_serving s = false →
  calls s !! k = Some (C_messageOut_send req respCh msgBytes) →
  calls s' !! k = Some (C_messageOut_send req respCh msgBytes).
Proof.
  revert s. induction tr as [|e tr IH]; intros s Hrun Hgone Hk; simpl in Hrun.
  - by simplify_eq.
  - destruct (step rev e s) as [s1|] eqn:Hstep; [|done].
    eapply IH; eauto using step_serving_false, step_blocked_Call.
Qed.

(** X6. The table holds exactly the callers between their [Store] and their
    deferred [Delete]: every entry maps the id of such a caller to the
    channel that caller made, and there is no other entry. *)
Theorem pendingCalls_are_the_live_calls maxPendingCall id tr s id' respCh :
  run rev tr (makeClient maxPendingCall id) = Some s →
  pendingCalls s !! id' = Some respCh ↔
  ∃ k pc, calls s !! k = Some pc ∧ call_reg pc = Some (id', respCh) ∧
          in_table pc = true.
Proof.
  intros Hrun.
  pose proof (table_inv_reachable rev uuid_inj _ _ _ _ Hrun)
    as [Hf Hi Ht Hto Hc Hr Hret Hcnt].
  split.
  - intros Hl. destruct (Hto _ _ Hl) as [k (pc & Hk & Hreg)%owns_lookup].
    exists k, pc. split; [done|]. split; [done|].
    specialize (Ht _ _ _ _ Hk Hreg). rewrite Hl in Ht.
    by destruct (in_table pc).
  - intros (k & pc & Hk & Hreg & Hin).
    specialize (Ht _ _ _ _ Hk Hreg). by rewrite Hin in Ht.
Qed.

(** X7. With fewer than 2^31 invocations of [Call] on a client the counter has
    not wrapped: it is the number of callers between [Add(1)] and the
    deferred [Add(-1)], never negative and never above the number of
    invocations. *)
Theorem pendingCnt_counts_calls maxPendingCall id tr s :
  run rev tr (makeClient maxPendingCall id) = Some s →
  Z.of_nat (length (calls s)) < 2 ^ 31 →
  pendingCnt s = Z.of_nat (in_flight (calls s)) ∧
  0 ≤ pendingCnt s ≤ Z.of_nat (length (calls s)).
Proof.
  intros Hrun Hlen.
  pose proof (table_inv_reachable rev uuid_inj _ _ _ _ Hrun) as Hinv.
  pose proof (in_flight_le_length (calls s)) as Hle.
  rewrite (inv_cnt _ Hinv), int32_small by lia. lia.
Qed.

(** X8. A caller that has registered and finds [writeLoop] out of its loop is
    lost: whatever happens afterwards it is still at its send on
    [messageOut], its entry is still in the table and it is still counted,
    for [Call] has no timeout around that send. *)
Theorem blocked_Call_keeps_its_entry maxPendingCall id tr0 tr s s' k req respCh msgBytes :
  run rev tr0 (makeClient maxPendingCall id) = Some s →
  writeLoop_serving s = false →
  calls s !! k = Some (C_messageOut_send req respCh msgBytes) →
  run rev tr s = Some s' →
  calls s' !! k = Some (C_messageOut_send req respCh msgBytes) ∧
  pendingCalls s' !! Id req = Some respCh ∧
  (1 ≤ in_flight (calls s'))%nat.
Proof.
  intros Hrun0 Hgone Hk Hrun.
  pose proof (run_blocked_Call _ _ _ _ _ _ _ Hrun Hgone Hk) as Hk'.
  pose proof (table_inv_reachable rev uuid_inj _ _ _ _ (run_app _ _ _ _ _ Hrun0 Hrun))
    as Hinv.
  split; [done|]. split.
  - by rewrite (inv_table _ Hinv _ _ _ _ Hk' eq_refl).
  - by eapply in_flight_lookup.
Qed.

Lemma step_exclusive e (s s' : State) :
  table_inv s →
  (∀ k action data, e = Call_step k → calls s !! k = Some (C_entry action data) →
                    window (calls s) = 0%nat) →
  step rev e s = Some s' →
  Z.of_nat (in_flight (calls s) + window (calls s)) ≤ int32 (maxPendingCalls s) →
  maxPendingCalls s' = maxPendingCalls s ∧
  Z.of_nat (in_flight (calls s') + window (calls s')) ≤ int32 (maxPendingCalls s').
Proof.
  intros Hinv Hex Hstep Hb.
  pose proof (inv_cnt _ Hinv) as Hcnt.
  pose proof (int32_range (maxPendingCalls s)) as Hmax.
  destruct e; simpl in Hstep;
    try (unfold readLoop_body, writeLoop_write, writeLoop_pong,
           writeLoop_closeFrame in Hstep;
         repeat match type of Hstep with
                | context [match ?x with _ => _ end] => destruct x eqn:?
                end;
         simplify_eq; simpl; by split).
  - (* Call *)
    simplify_eq. simpl. rewrite in_flight_app, window_app. simpl. split; [done|lia].
  - (* Call_step *)
    destruct (calls s !! k) as [pc|] eqn:Hk; [|done].
    destruct pc; simpl in Hstep; try done;
      repeat match type of Hstep with
             | context [match ?x with _ => _ end] => destruct x eqn:?
             end;
      simplify_eq; simpl; (split; [done|]);
      match goal with
      | |- context [<[_ := ?pc']> _] =>
        pose proof (in_flight_insert _ _ _ pc' Hk) as Hif;
        pose proof (window_insert _ _ _ pc' Hk) as Hw
      end; simpl in Hif, Hw; try lia.
    (* the check of the counter has passed *)
    specialize (Hex _ _ _ eq_refl Hk).
    apply bool_decide_eq_false_1 in Heqb.
    rewrite Hcnt, (int32_small (Z.of_nat _)) in Heqb by lia. lia.
  - (* Call_messageOut *)
    destruct (calls s !! k) as [[]|] eqn:Hk, (wl s); simplify_eq. simpl.
    split; [done|].
    pose proof (in_flight_insert _ _ _ (C_select req respCh) Hk) as Hif.
    pose proof (window_insert _ _ _ (C_select req respCh) Hk) as Hw.
    simpl in Hif, Hw. lia.
  - (* Call_respCh *)
    destruct (calls s !! k) as [[| | | |req respCh| | | |]|] eqn:Hk; try done.
    destruct (chans s !! respCh) as [[|resp rest]|]; simplify_eq. simpl.
    split; [done|].
    pose proof (in_flight_insert _ _ _ (C_defer_Delete req respCh (inl resp)) Hk) as Hif.
    pose proof (window_insert _ _ _ (C_defer_Delete req respCh (inl resp)) Hk) as Hw.
    simpl in Hif, Hw. lia.
  - (* Call_timeout *)
    destruct (calls s !! k) as [[| | | |req respCh| | | |]|] eqn:Hk; simplify_eq.
    simpl. split; [done|].
    pose proof (in_flight_insert _ _ _ (C_defer_Delete req respCh (inr ErrTimeout)) Hk) as Hif.
    pose proof (window_insert _ _ _ (C_defer_Delete req respCh (inr ErrTimeout)) Hk) as Hw.
    simpl in Hif, Hw. lia.
Qed.

Lemma run_exclusive tr (s s' : State) :
  table_inv s → exclusive rev tr s = true → run rev tr s = Some s' →
  Z.of_nat (in_flight (calls s) + window (calls s)) ≤ int32 (maxPendingCalls s) →
  maxPendingCalls s' = maxPendingCalls s ∧
  Z.of_nat (in_flight (calls s') + window (calls s')) ≤ int32 (maxPendingCalls s').
Proof.
  revert s. induction tr as [|e tr IH]; intros s Hinv Hex Hrun Hb; simpl in *.
  - by simplify_eq.
  - destruct (step rev e s) as [s1|] eqn:Hstep; [|done].
    apply andb_true_iff in Hex as [Hnow Hlater].
    destruct (step_exclusive e s s1 Hinv) as [Hm1 Hb1]; [|done|done|].
    { intros k action data -> Hk. rewrite Hk in Hnow.
      by apply bool_decide_eq_true_1 in Hnow. }
    destruct (IH s1) as [Hm Hb']; eauto using table_inv_step.
    split; [congruence|done].
Qed.

(** X9. The bound on pending calls holds in every schedule in which the
    check of the counter at the entry of [Call] is never run while another
    caller is between its own check and its [Add(1)]. *)
Theorem pendingCnt_bounded_when_checks_do_not_overlap maxPendingCall id tr s :
  0 ≤ int32 maxPendingCall →
  exclusive rev tr (makeClient maxPendingCall id) = true →
  run rev tr (makeClient maxPendingCall id) = Some s →
  pendingCnt s ≤ int32 maxPendingCall.
Proof.
  intros Hpos Hex Hrun.
  destruct (run_exclusive tr _ s (table_inv_makeClient _ _) Hex Hrun) as [Hm Hb];
    [simpl; lia|].
  pose proof (table_inv_reachable rev uuid_inj _ _ _ _ Hrun) as Hinv.
  pose proof (int32_range maxPendingCall) as Hmax.
  simpl in Hm. rewrite Hm in Hb.
  rewrite (inv_cnt _ Hinv), int32_small by lia. lia.
Qed.

End Calls.

Section Wire.

Context `{D : Deps} (rev : Revision).

Lemma outbound_inv_step e (s s' : State) :
  outbound_inv s → step rev e s = Some s' → outbound_inv s'.
Proof.
  intros [Hw Hwl Hrl Hc] Hstep.
  destruct e; simpl in Hstep.
  - (* ReadMessage *)
    destruct (rl s) eqn:Hr; simplify_eq. unfold readLoop_body.
    repeat case_match; constructor; simpl; try done;
      try (intros msgOut ?; simplify_eq; eauto; congruence).
  - destruct (rl s) eqn:Hr; try done. case_match; simplify_eq.
    constructor; simpl; try done.
  - destruct (rl s) eqn:Hr; try done. repeat case_match; simplify_eq.
    constructor; simpl; try done.
  - destruct (rl s) eqn:Hr, (wl s) eqn:Hwls; simplify_eq.
    constructor; simpl; try done. intros msg [= <-]. eauto.
  - destruct (rl s) eqn:Hr; simplify_eq. constructor; simpl; try done.
  - (* WriteLoop_write *)
    destruct (wl s) eqn:Hwls; simplify_eq. unfold writeLoop_write.
    case_match; constructor; simpl; try done;
      apply Forall_app; (split; [done|]); apply Forall_singleton;
      unfold envelope_pong_or_close; simpl; eauto.
  - destruct (wl s) eqn:Hwls; simplify_eq. unfold writeLoop_pong.
    case_match; constructor; simpl; try done;
      apply Forall_app; (split; [done|]); by apply Forall_singleton.
  - destruct (wl s) eqn:Hwls, (closeCh s); simplify_eq.
    constructor; simpl; try done.
  - destruct (wl s) eqn:Hwls; simplify_eq. unfold writeLoop_closeFrame.
    case_match; constructor; simpl; try done;
      apply Forall_app; (split; [done|]); by apply Forall_singleton.
  - destruct (wl s) eqn:Hwls; try done. case_match; simplify_eq.
    constructor; simpl; try done.
  - destruct (wl s) eqn:Hwls; simplify_eq. constructor; simpl; try done.
  - simplify_eq. constructor; simpl; try done.
  - destruct (pings s !! i) as [[]|], (wl s) eqn:Hwls; simplify_eq.
    constructor; simpl; try done.
  - destruct (pings s !! i) as [[]|]; simplify_eq. constructor; simpl; try done.
  - (* Call *)
    simplify_eq. constructor; simpl; try done.
    intros k req respCh msgBytes Hk.
    destruct (decide (k < length (calls s))%nat).
    + rewrite lookup_app_l in Hk by done. eauto.
    + rewrite lookup_app_r in Hk by lia.
      destruct (k - length (calls s))%nat; simplify_eq/=.
  - (* Call_step *)
    destruct (calls s !! k) as [pc|] eqn:Hk; [|done].
    destruct pc; simpl in Hstep; try done; repeat case_match; simplify_eq;
      constructor; simpl; try done;
      intros k' req' respCh' msgBytes'
        [(-> & ? & _)|[_ Hold]]%list_lookup_insert_Some;
      simplify_eq; eauto.
  - (* Call_messageOut *)
    destruct (calls s !! k) as [[]|] eqn:Hk, (wl s) eqn:Hwls; simplify_eq.
    constructor; simpl; try done.
    + intros msg [= <-]. eauto.
    + intros k' req' respCh' msgBytes'
        [(-> & ? & _)|[_ Hold]]%list_lookup_insert_Some;
        simplify_eq; eauto.
  - (* Call_respCh *)
    destruct (calls s !! k) as [[| | | |req respCh| | | |]|] eqn:Hk; try done.
    destruct (chans s !! respCh) as [[|resp rest]|]; simplify_eq.
    constructor; simpl; try done.
    intros k' req' respCh' msgBytes'
      [(-> & ? & _)|[_ Hold]]%list_lookup_insert_Some;
      simplify_eq; eauto.
  - (* Call_timeout *)
    destruct (calls s !! k) as [[| | | |req respCh| | | |]|] eqn:Hk; simplify_eq.
    constructor; simpl; try done.
    intros k' req' respCh' msgBytes'
      [(-> & ? & _)|[_ Hold]]%list_lookup_insert_Some;
      simplify_eq; eauto.
Qed.

Lemma outbound_inv_run tr (s s' : State) :
  outbound_inv s → run rev tr s = Some s' → outbound_inv s'.
Proof.
  revert s. induction tr as [|e tr IH]; intros s Hinv Hrun; simpl in Hrun.
  - by simplify_eq.
  - destruct (step rev e s) as [s1|] eqn:Hstep; [|done].
    eauto using outbound_inv_step.
Qed.

(** X10. Only three kinds of frame are ever handed to the transport: a text
    frame holding an encoded envelope, a pong without payload, and a close
    frame with the normal-closure code and no text. *)
Theorem only_envelopes_pongs_and_close_frames maxPendingCall id tr s w :
  run rev tr (makeClient maxPendingCall id) = Some s →
  w ∈ conn_writes s → envelope_pong_or_close w.
Proof.
  intros Hrun Hin.
  assert (outbound_inv (makeClient maxPendingCall id)) as H0
    by (constructor; simpl; done).
  pose proof (out_writes _ (outbound_inv_run _ _ _ H0 Hrun)) as Hall.
  rewrite Forall_forall in Hall. by apply Hall.
Qed.

End Wire.

Section RoundTrip.

Context `{D : Deps} (rev : Revision).
Hypothesis uuid_inj : Inj (=) (=) uuid_NewString.

Lemma run_deferred_writes (s s' : State) k :
  run rev [Call_step k; Call_step k] s = Some s' →
  conn_writes s' = conn_writes s.
Proof.
  intros Hrun. simpl in Hrun.
  destruct (calls s !! k) as [pc|]; [|done].
  destruct (Call_next k pc s) as [s1|] eqn:H1; [|done].
  destruct (calls s1 !! k) as [pc1|] eqn:Hk1; [|done].
  destruct (Call_next k pc1 s1) as [s2|] eqn:H2; simplify_eq.
  transitivity (conn_writes s1).
  - destruct pc1; simpl in H2; repeat case_match; by simplify_eq.
  - destruct pc; simpl in H1; repeat case_match; by simplify_eq.
Qed.

(** X11. A call that the peer answers, run without interference from its entry
    to its return: the request is written as one text frame, the answer
    read from the transport is the value returned, and the table and the
    counter are afterwards what they were before. *)
Theorem answered_Call_returns_the_response
    maxPendingCall id tr0 (s : State) k action data raw msgBytes reply resp :
  run rev tr0 (makeClient maxPendingCall id) = Some s →
  calls s !! k = Some (C_entry action data) →
  ¬ int32 (maxPendingCalls s) ≤ pendingCnt s →
  rl s = RL_ReadMessage → wl s = WL_select →
  json_Marshal data = Some raw →
  let req := {| Id := uuid_NewString (uuid_next s); Typ := Req;
                Action := action; Data := raw |} in
  Message_ToBytes req = Some msgBytes →
  protocol_ToMessage reply = ToMessage_ok (Some resp) →
  Typ resp = Resp → Id resp = Id req →
  ∃ s', run rev [ Call_step k; Call_step k; Call_step k; Call_messageOut k;
                  WriteLoop_write true true true;
                  ReadMessage (Some reply); ReadLoop_callCh;
                  Call_respCh k; Call_step k; Call_step k ] s = Some s' ∧
        calls s' !! k = Some (C_returned req (length (chans s)) (inl resp)) ∧
        pendingCalls s' = pendingCalls s ∧
        pendingCnt s' = pendingCnt s ∧
        conn_writes s' = conn_writes s ++ [(TextMessage msgBytes, true)] ∧
        rl s' = RL_ReadMessage ∧ wl s' = WL_select.
Proof.
  intros Hrun Hk Hcap Hrl Hwl Hm req Henc Hdec Hty Hid.
  pose proof (table_inv_reachable rev uuid_inj _ _ _ _ Hrun)
    as [Hf Hi Ht Hto Hc Hr Hret Hcnt].
  assert (k < length (calls s))%nat as Hlt by (by eapply lookup_lt_Some).
  assert (pendingCalls s !! Id req = None) as Hfresh.
  { destruct (pendingCalls s !! Id req) as [ch|] eqn:Hl; [|done].
    destruct (Hto _ _ Hl) as [k1 Ho].
    destruct (Hf _ _ _ Ho) as [(n & Hn & Heq%uuid_inj) _]. lia. }
  set (ch := length (chans s)).
  set (s1 := set_call k (C_Store req ch)
               (set_chans (chans s ++ [[]]) (set_uuid_next (S (uuid_next s)) s))).
  set (s2 := set_call k (C_Add req ch)
               (set_pendingCalls (<[Id req := ch]> (pendingCalls s1)) s1)).
  set (s3 := set_call k (C_messageOut_send req ch msgBytes)
               (set_pendingCnt (int32 (pendingCnt s2 + 1)) s2)).
  set (s4 := set_call k (C_select req ch) (set_wl (WL_write msgBytes) s3)).
  set (s5 := set_wl WL_select
               (set_conn_writes (conn_writes s4 ++ [(TextMessage msgBytes, true)]) s4)).
  set (s6 := set_rl (RL_callCh_send ch resp) s5).
  set (s7 := set_rl RL_ReadMessage (set_chans (<[ch := [resp]]> (chans s6)) s6)).
  set (s8 := set_call k (C_defer_Delete req ch (inl resp))
               (set_chans (<[ch := []]> (chans s7)) s7)).
  assert (step rev (Call_step k) s = Some s1) as H1.
  { rewrite (step_Call_step _ _ _ _ Hk). simpl.
    by rewrite bool_decide_eq_false_2, Hm. }
  assert (calls s1 !! k = Some (C_Store req ch)) as Hk1
    by (by eapply calls_set_call_lookup).
  assert (step rev (Call_step k) s1 = Some s2) as H2
    by (by rewrite (step_Call_step _ _ _ _ Hk1)).
  assert (calls s2 !! k = Some (C_Add req ch)) as Hk2
    by (by eapply calls_set_call_lookup).
  assert (step rev (Call_step k) s2 = Some s3) as H3.
  { rewrite (step_Call_step _ _ _ _ Hk2). simpl Call_next. by rewrite Henc. }
  assert (step rev (Call_messageOut k) s3 = Some s4) as H4.
  { simpl. rewrite Hwl.
    rewrite list_lookup_insert_eq by (by rewrite !length_insert). done. }
  assert (step rev (WriteLoop_write true true true) s4 = Some s5) as H5.
  { simpl. unfold writeLoop_write. by destruct rev. }
  assert (step rev (ReadMessage (Some reply)) s5 = Some s6) as H6.
  { simpl. rewrite Hrl. unfold readLoop_body. rewrite Hdec, Hty, Hid. simpl.
    by rewrite lookup_insert_eq. }
  assert (chans s6 !! ch = Some []) as Hch6.
  { simpl. unfold ch. rewrite lookup_app_r by lia. by rewrite Nat.sub_diag. }
  assert (step rev ReadLoop_callCh s6 = Some s7) as H7.
  { change (step rev ReadLoop_callCh s6) with
      (match chans s6 !! ch with
       | Some buf =>
         if has_room buf
         then Some (set_rl RL_ReadMessage
                      (set_chans (<[ch := buf ++ [resp]]> (chans s6)) s6))
         else None
       | None => None
       end).
    by rewrite Hch6. }
  assert (step rev (Call_respCh k) s7 = Some s8) as H8.
  { simpl. rewrite list_lookup_insert_eq by (by rewrite !length_insert).
    rewrite list_lookup_insert_eq; [done|].
    rewrite length_app. simpl. unfold ch. lia. }
  destruct (run_deferred rev s8 k req ch (inl resp))
    as (s' & Hs' & Hcalls & Htab & Hpc & _ & Hrl' & Hwl').
  { simpl. apply list_lookup_insert_eq. by rewrite !length_insert. }
  exists s'. split.
  { by rewrite (run_cons _ _ _ _ _ H1), (run_cons _ _ _ _ _ H2),
      (run_cons _ _ _ _ _ H3), (run_cons _ _ _ _ _ H4), (run_cons _ _ _ _ _ H5),
      (run_cons _ _ _ _ _ H6), (run_cons _ _ _ _ _ H7), (run_cons _ _ _ _ _ H8). }
  split; [done|]. split; [|split; [|split; [|done]]].
  - rewrite Htab. simpl. rewrite delete_insert_eq. by apply delete_id.
  - rewrite Hpc. simpl. rewrite Hcnt, int32_add_l, int32_sub_l. f_equal. lia.
  - by rewrite (run_deferred_writes _ _ _ Hs').
Qed.

End RoundTrip.

Section ReadSide.

Context `{D : Deps} (rev : Revision).

Lemma readLoop_body_frame r (s : State) :
  let s' := readLoop_body rev r s in
  closeCh s' = closeCh s ∧ wl s' = wl s ∧ removed s' = removed s ∧
  conn_writes s' = conn_writes s ∧ c_id s' = c_id s ∧
  netConn_closed s' = netConn_closed s ∧
  pendingCalls s' = pendingCalls s ∧ pendingCnt s' = pendingCnt s.
Proof. unfold readLoop_body. by repeat case_match. Qed.

(** X12. A request that is served, followed to the transport: the worker builds
    the response from the handler's payload and the request's action, hands
    it to [writeLoop], which writes it as one text frame; both workers are
    then back where they were, and neither the close channel nor the table
    nor the counter has been touched. *)
Theorem served_request_is_answered (s : State) msg message h respData msgOut :
  rl s = RL_ReadMessage → wl s = WL_select →
  protocol_ToMessage msg = ToMessage_ok (Some message) →
  Typ message = Req →
  getHandler (Action message) = Some h → h message = Some respData →
  let resp := response rev message respData (uuid_NewString (uuid_next s)) in
  Message_ToBytes resp = Some msgOut →
  ∃ s', run rev [ReadMessage (Some msg); ReadLoop_messageOut;
                 WriteLoop_write true true true] s = Some s' ∧
        conn_writes s' = conn_writes s ++ [(TextMessage msgOut, true)] ∧
        rl s' = RL_ReadMessage ∧ wl s' = WL_select ∧
        closeCh s' = closeCh s ∧
        pendingCalls s' = pendingCalls s ∧ pendingCnt s' = pendingCnt s ∧
        Typ resp = Resp ∧ Action resp = Action message ∧ Data resp = respData.
Proof.
  intros Hrl Hwl Hdec Hty Hh Hr resp Henc.
  destruct rev; (eexists; split;
    [ simpl; rewrite Hrl; unfold readLoop_body;
      rewrite Hdec, Hty, Hh, Hr; fold resp; rewrite Henc;
      simpl; rewrite Hwl; reflexivity
    | done ]).
Qed.

(** X13. When [readLoop] decides to close, for whatever reason, and the close
    channel is empty and [writeLoop] idle: the signal is raised, [readLoop]
    returns through its deferred [Remove], and [writeLoop] takes the signal
    and writes the close frame; if that write fails it closes the network
    connection.  [writeLoop] is then at its [select] again. *)
Theorem readLoop_close_reaches_the_transport (s : State) r ok :
  rl s = RL_ReadMessage → wl s = WL_select → closeCh s = [] →
  rl (readLoop_body rev r s) = RL_closeCh_send →
  ∃ s', run rev [ReadMessage r; ReadLoop_closeCh; ReadLoop_defer;
                 WriteLoop_recv_closeCh; WriteLoop_closeFrame ok] s = Some s' ∧
        conn_writes s' =
          conn_writes s ++ [(CloseMessage CloseNormalClosure EmptyString, ok)] ∧
        removed s' = removed s ++ [c_id s] ∧
        rl s' = RL_exited ∧ wl s' = WL_select ∧ closeCh s' = [] ∧
        netConn_closed s' = (if ok then netConn_closed s else true).
Proof.
  intros Hrl Hwl Hclose Hfatal.
  destruct (readLoop_body_frame r s) as (Hc & Hw & Hrm & Hcw & Hid & Hn & _).
  destruct ok; (eexists; split;
    [ simpl; rewrite Hrl, Hfatal, Hc, Hclose; simpl; rewrite Hw, Hwl;
      unfold writeLoop_closeFrame; simpl; reflexivity
    | simpl; rewrite ?Hcw, ?Hrm, ?Hid, ?Hn; done ]).
Qed.

Lemma responses_only_step e (s s' : State) :
  step rev e s = Some s' →
  ((∀ ch buf m, chans s !! ch = Some buf → m ∈ buf → Typ m = Resp) ∧
   (∀ ch m, rl s = RL_callCh_send ch m → Typ m = Resp) ∧
   (∀ k pc, calls s !! k = Some pc → call_outcome_ok pc)) →
  ((∀ ch buf m, chans s' !! ch = Some buf → m ∈ buf → Typ m = Resp) ∧
   (∀ ch m, rl s' = RL_callCh_send ch m → Typ m = Resp) ∧
   (∀ k pc, calls s' !! k = Some pc → call_outcome_ok pc)).
Proof.
  intros Hstep (Hch & Hrl & Hc).
  assert (∀ k0 pc0 (l : list CallPc) k pc,
            (∀ k pc, l !! k = Some pc → call_outcome_ok pc) →
            call_outcome_ok pc0 →
            <[k0 := pc0]> l !! k = Some pc → call_outcome_ok pc) as Hins.
  { intros k0 pc0 l k pc Hl H0 [(-> & <- & _)|[_ Hold]]%list_lookup_insert_Some; eauto. }
  destruct e; simpl in Hstep.
  - (* ReadMessage *)
    destruct (rl s) eqn:Hr; simplify_eq. unfold readLoop_body.
    repeat case_match; (split; [|split]); simpl; try done;
      intros ch m' Heq; simpl in Heq; rewrite ?Hr in Heq; by simplify_eq.
  - destruct (rl s) eqn:Hr; try done. case_match; simplify_eq. done.
  - (* ReadLoop_callCh *)
    destruct (rl s) as [| |callCh message| | |] eqn:Hr; try done.
    destruct (chans s !! callCh) as [buf|] eqn:Hbuf; [|done].
    case_match; simplify_eq. split; [|split]; simpl; try done.
    intros ch buf' m [(-> & <- & _)|[_ Hold]]%list_lookup_insert_Some Hin;
      [|by eauto].
    apply elem_of_app in Hin as [Hin|Hin%list_elem_of_singleton]; [by eauto|].
    subst. by eapply Hrl.
  - destruct (rl s) eqn:Hr, (wl s); simplify_eq. done.
  - destruct (rl s) eqn:Hr; simplify_eq. done.
  - destruct (wl s); simplify_eq. unfold writeLoop_write. by case_match.
  - destruct (wl s); simplify_eq. unfold writeLoop_pong. by case_match.
  - destruct (wl s), (closeCh s); simplify_eq. done.
  - destruct (wl s); simplify_eq. unfold writeLoop_closeFrame. by case_match.
  - destruct (wl s); try done. case_match; simplify_eq. done.
  - destruct (wl s); simplify_eq. done.
  - simplify_eq. done.
  - destruct (pings s !! i) as [[]|], (wl s); simplify_eq. done.
  - destruct (pings s !! i) as [[]|]; simplify_eq. done.
  - (* Call *)
    simplify_eq. split; [|split]; simpl; try done.
    intros k pc Hk. destruct (decide (k < length (calls s))%nat).
    + rewrite lookup_app_l in Hk by done. eauto.
    + rewrite lookup_app_r in Hk by lia.
      destruct (k - length (calls s))%nat; by simplify_eq/=.
  - (* Call_step *)
    destruct (calls s !! k) as [pc|] eqn:Hk; [|done].
    specialize (Hc _ _ Hk) as Hpc.
    destruct pc; simpl in Hstep; try done; repeat case_match; simplify_eq;
      (split; [|split]); simpl; try done;
      try (intros k' pc'; apply Hins; [done|]; simpl in *; eauto).
    intros ch buf m Hl Hin.
    destruct (decide (ch < length (chans s))%nat).
    + rewrite lookup_app_l in Hl by done. eauto.
    + rewrite lookup_app_r in Hl by lia.
      destruct (ch - length (chans s))%nat; simplify_eq/=.
      by apply elem_of_nil in Hin.
  - (* Call_messageOut *)
    destruct (calls s !! k) as [[]|] eqn:Hk, (wl s); simplify_eq.
    split; [|split]; simpl; try done.
    intros k' pc'; apply Hins; [done|]. done.
  - (* Call_respCh *)
    destruct (calls s !! k) as [[| | | |req respCh| | | |]|] eqn:Hk; try done.
    destruct (chans s !! respCh) as [[|resp rest]|] eqn:Hbuf; simplify_eq.
    split; [|split]; simpl; try done.
    + intros ch buf m [(-> & <- & _)|[_ Hold]]%list_lookup_insert_Some Hin;
        [|by eauto].
      eapply Hch; [done|]. by apply elem_of_cons; right.
    + intros k' pc'; apply Hins; [done|]. simpl. right. right.
      exists resp. split; [done|]. eapply Hch; [done|]. by apply elem_of_cons; left.
  - (* Call_timeout *)
    destruct (calls s !! k) as [[| | | |req respCh| | | |]|] eqn:Hk; simplify_eq.
    split; [|split]; simpl; try done.
    intros k' pc'; apply Hins; [done|]. simpl. eauto.
Qed.

(** X14. What [Call] returns.  Before it has registered: the capacity error or
    the error of [json.Marshal].  After: the error of [ToBytes], the timeout
    error, or an envelope of type response, and nothing else. *)
Theorem Call_returns maxPendingCall id tr s k pc :
  run rev tr (makeClient maxPendingCall id) = Some s →
  calls s !! k = Some pc → call_outcome_ok pc.
Proof.
  assert (∀ tr (s0 s1 : State),
            run rev tr s0 = Some s1 →
            ((∀ ch buf m, chans s0 !! ch = Some buf → m ∈ buf → Typ m = Resp) ∧
             (∀ ch m, rl s0 = RL_callCh_send ch m → Typ m = Resp) ∧
             (∀ k pc, calls s0 !! k = Some pc → call_outcome_ok pc)) →
            (∀ k pc, calls s1 !! k = Some pc → call_outcome_ok pc)) as Hgen.
  { clear. intros tr. induction tr as [|e tr IH]; intros s0 s1 Hrun Hinv; simpl in Hrun.
    - simplify_eq. apply Hinv.
    - destruct (step rev e s0) as [s2|] eqn:Hstep; [|done].
      eapply IH; [done|]. by eapply responses_only_step. }
  intros Hrun Hk. eapply Hgen; [done| |done]. simpl. done.
Qed.

Lemma no_room_step e (s s' : State) :
  step rev e s = Some s' →
  int32 (maxPendingCalls s) ≤ 0 →
  (pendingCnt s = 0 ∧ pendingCalls s = ∅ ∧
   ∀ k pc, calls s !! k = Some pc →
           (∃ action data, pc = C_entry action data) ∨
           pc = C_returned_early (inr ErrMaxPending)) →
  maxPendingCalls s' = maxPendingCalls s ∧
  pendingCnt s' = 0 ∧ pendingCalls s' = ∅ ∧
  ∀ k pc, calls s' !! k = Some pc →
          (∃ action data, pc = C_entry action data) ∨
          pc = C_returned_early (inr ErrMaxPending).
Proof.
  intros Hstep Hmax (Hcnt & Htab & Hc).
  destruct e; simpl in Hstep;
    try (unfold readLoop_body, writeLoop_write, writeLoop_pong,
           writeLoop_closeFrame in Hstep;
         repeat match type of Hstep with
                | context [match ?x with _ => _ end] => destruct x eqn:?
                end;
         simplify_eq; simpl; done).
  - (* Call *)
    simplify_eq. simpl. repeat (split; [done|]).
    intros k pc Hk. destruct (decide (k < length (calls s))%nat).
    + rewrite lookup_app_l in Hk by done. eauto.
    + rewrite lookup_app_r in Hk by lia.
      destruct (k - length (calls s))%nat; simplify_eq/=. eauto.
  - (* Call_step *)
    destruct (calls s !! k) as [pc|] eqn:Hk; [|done].
    destruct (Hc _ _ Hk) as [(action & data & ->)| ->]; simpl in Hstep; [|done].
    rewrite bool_decide_eq_true_2 in Hstep by lia. simplify_eq. simpl.
    repeat (split; [done|]).
    intros k' pc' [(-> & <- & _)|[_ Hold]]%list_lookup_insert_Some; eauto.
  - (* Call_messageOut *)
    destruct (calls s !! k) as [pc|] eqn:Hk; [|done].
    destruct (Hc _ _ Hk) as [(action & data & ->)| ->]; done.
  - destruct (calls s !! k) as [pc|] eqn:Hk; [|done].
    destruct (Hc _ _ Hk) as [(action & data & ->)| ->]; done.
  - destruct (calls s !! k) as [pc|] eqn:Hk; [|done].
    destruct (Hc _ _ Hk) as [(action & data & ->)| ->]; done.
Qed.

(** X15. A limit that is zero or negative once converted to [int32] (the
    zero value, or a multiple of 2^32) shuts [Call] off: every invocation
    returns the capacity error at its first step, nothing is ever registered
    and the counter stays at zero. *)
Theorem no_room_rejects_every_Call maxPendingCall id tr s :
  int32 maxPendingCall ≤ 0 →
  run rev tr (makeClient maxPendingCall id) = Some s →
  pendingCnt s = 0 ∧ pendingCalls s = ∅ ∧
  ∀ k pc, calls s !! k = Some pc →
          (∃ action data, pc = C_entry action data) ∨
          pc = C_returned_early (inr ErrMaxPending).
Proof.
  intros Hmax.
  assert (∀ tr (s0 s1 : State),
            run rev tr s0 = Some s1 →
            int32 (maxPendingCalls s0) ≤ 0 →
            (pendingCnt s0 = 0 ∧ pendingCalls s0 = ∅ ∧
             ∀ k pc, calls s0 !! k = Some pc →
                     (∃ action data, pc = C_entry action data) ∨
                     pc = C_returned_early (inr ErrMaxPending)) →
            (pendingCnt s1 = 0 ∧ pendingCalls s1 = ∅ ∧
             ∀ k pc, calls s1 !! k = Some pc →
                     (∃ action data, pc = C_entry action data) ∨
                     pc = C_returned_early (inr ErrMaxPending))) as Hgen.
  { clear. intros tr. induction tr as [|e tr IH]; intros s0 s1 Hrun Hm Hinv;
      simpl in Hrun.
    - by simplify_eq.
    - destruct (step rev e s0) as [s2|] eqn:Hstep; [|done].
      destruct (no_room_step _ _ _ Hstep Hm Hinv) as (Hm' & Hinv').
      eapply IH; [done| |done]. by rewrite Hm'. }
  intros Hrun. eapply Hgen; [done|done|]. simpl. done.
Qed.

End ReadSide.

Section Wedge.

Context `{D : Deps} (rev : Revision).

Lemma step_wedged e (s s' : State) callCh message buf :
  step rev e s = Some s' →
  rl s = RL_callCh_send callCh message →
  chans s !! callCh = Some buf → buf ≠ [] →
  (∀ k pc id', calls s !! k = Some pc → call_reg pc = Some (id', callCh) →
               past_select pc = true) →
  rl s' = RL_callCh_send callCh message ∧
  chans s' !! callCh = Some buf ∧
  (∀ k pc id', calls s' !! k = Some pc → call_reg pc = Some (id', callCh) →
               past_select pc = true).
Proof.
  intros Hstep Hrl Hbuf Hne Hpast.
  assert (callCh < length (chans s))%nat as Hlt by (by eapply lookup_lt_Some).
  assert (∀ k0 pc0 k pc id',
            (∀ id0, call_reg pc0 = Some (id0, callCh) → past_select pc0 = true) →
            <[k0 := pc0]> (calls s) !! k = Some pc →
            call_reg pc = Some (id', callCh) → past_select pc = true) as Hins.
  { intros k0 pc0 k pc id' H0 [(-> & <- & _)|[_ Hold]]%list_lookup_insert_Some Hreg;
      eauto. }
  destruct e; simpl in Hstep; rewrite ?Hrl in Hstep; try done.
  - (* ReadLoop_callCh: the buffer is full *)
    rewrite Hbuf in Hstep. destruct buf; [done|]. done.
  - destruct (wl s); simplify_eq. unfold writeLoop_write. by case_match.
  - destruct (wl s); simplify_eq. unfold writeLoop_pong. by case_match.
  - destruct (wl s), (closeCh s); by simplify_eq.
  - destruct (wl s); simplify_eq. unfold writeLoop_closeFrame. by case_match.
  - destruct (wl s); try done. case_match; by simplify_eq.
  - destruct (wl s); by simplify_eq.
  - by simplify_eq.
  - destruct (pings s !! i) as [[]|], (wl s); by simplify_eq.
  - destruct (pings s !! i) as [[]|]; by simplify_eq.
  - (* Call *)
    simplify_eq. simpl. split; [done|]. split; [done|].
    intros k pc id' Hk Hreg. destruct (decide (k < length (calls s))%nat).
    + rewrite lookup_app_l in Hk by done. eauto.
    + rewrite lookup_app_r in Hk by lia.
      destruct (k - length (calls s))%nat; simplify_eq/=.
  - (* Call_step *)
    destruct (calls s !! k) as [pc|] eqn:Hk; [|done].
    destruct pc; simpl in Hstep; try done; repeat case_match; simplify_eq; simpl;
      (split; [done|]);
      (split; [by rewrite ?lookup_app_l by done|]);
      intros k' pc' id'; apply Hins; simpl; intros id0 Heq; simplify_eq;
      try done; try lia;
      by (eapply (Hpast _ _ _ Hk)).
  - (* Call_messageOut *)
    destruct (calls s !! k) as [[]|] eqn:Hk, (wl s); simplify_eq. simpl.
    split; [done|]. split; [done|].
    intros k' pc' id'; apply Hins; simpl; intros id0 Heq; simplify_eq.
    by (eapply (Hpast _ _ _ Hk)).
  - (* Call_respCh *)
    destruct (calls s !! k) as [[| | | |req respCh| | | |]|] eqn:Hk; try done.
    destruct (chans s !! respCh) as [[|resp rest]|] eqn:Hb; simplify_eq. simpl.
    assert (respCh ≠ callCh) as Hch.
    { intros ->. by specialize (Hpast _ _ _ Hk eq_refl). }
    split; [done|]. split; [by rewrite list_lookup_insert_ne|].
    intros k' pc' id'; apply Hins; simpl; done.
  - (* Call_timeout *)
    destruct (calls s !! k) as [[| | | |req respCh| | | |]|] eqn:Hk; simplify_eq.
    simpl. split; [done|]. split; [done|].
    intros k' pc' id'; apply Hins; simpl; done.
Qed.

(** X16. [readLoop] waiting to deliver a response into a channel that is full,
    when the caller that made the channel has already left its [select]
    (a second response for an id whose call has timed out in between):
    nobody will empty that channel, so [readLoop] stays at this send for
    ever and no further frame of the connection is read. *)
Theorem readLoop_wedged_by_unread_response tr (s s' : State) callCh message buf :
  run rev tr s = Some s' →
  rl s = RL_callCh_send callCh message →
  chans s !! callCh = Some buf → buf ≠ [] →
  (∀ k pc id', calls s !! k = Some pc → call_reg pc = Some (id', callCh) →
               past_select pc = true) →
  rl s' = RL_callCh_send callCh message ∧ chans s' !! callCh = Some buf.
Proof.
  revert s. induction tr as [|e tr IH]; intros s Hrun Hrl Hbuf Hne Hpast;
    simpl in Hrun.
  - by simplify_eq.
  - destruct (step rev e s) as [s1|] eqn:Hstep; [|done].
    destruct (step_wedged _ _ _ _ _ _ Hstep Hrl Hbuf Hne Hpast) as (Hrl1 & Hbuf1 & Hpast1).
    eauto.
Qed.

End Wedge.

(** ** The further properties on concrete schedules *)

Lemma at_most_one_close_frame_witness :
  close_frames (conn_writes (Demo.final Rev1 Demo.malformed_then_call 5)) = 1%nat ∧
  (close_frames (conn_writes (Demo.final Rev1 Demo.malformed_then_call 5)) ≤ 1)%nat.
Proof.
  split; [vm_compute; reflexivity|].
  apply (at_most_one_close_frame (D := Demo.deps) Rev1 5 "conn"
           Demo.malformed_then_call).
  vm_compute; reflexivity.
Defined.

Lemma writeLoop_leaves_on_failed_write_witness :
  let s := Demo.final Rev1 Demo.malformed_then_call 5 in
  wl s = WL_exited ∧
  ∃ ws f, conn_writes s = ws ++ [(f, false)] ∧ is_close (f, false) = false.
Proof.
  intros s. split; [vm_compute; reflexivity|].
  apply (writeLoop_leaves_on_failed_write (D := Demo.deps) Rev1 5 "conn"
           Demo.malformed_then_call s); vm_compute; reflexivity.
Defined.

Lemma netConn_closed_iff_close_frame_failed_witness :
  let tr : list (Event (D := Demo.deps)) :=
    [ReadMessage None; ReadLoop_closeCh; WriteLoop_recv_closeCh;
     WriteLoop_closeFrame false] in
  let s := Demo.final Rev2 tr 5 in
  netConn_closed s = true ∧
  (CloseMessage CloseNormalClosure EmptyString, false) ∈ conn_writes s.
Proof.
  intros tr s. split; [vm_compute; reflexivity|].
  apply (netConn_closed_iff_close_frame_failed (D := Demo.deps) Rev2 5 "conn" tr s);
    vm_compute; reflexivity.
Defined.

Lemma senders_blocked_after_writeLoop_witness :
  let s := Demo.final Rev1 (take 12 Demo.call_after_write_failure) 5 in
  let s' := Demo.final Rev1 (take 12 Demo.call_after_write_failure ++
                             [Ping "p"; ReadMessage None]) 5 in
  wl s = WL_exited ∧
  calls s' !! 1%nat =
    Some (C_messageOut_send
            {| Id := "call-1"; Typ := Req; Action := "echo"; Data := Demo.B "2" |} 1
            (Demo.request "call-1" "echo" "2")).
Proof.
  intros s s'. split; [vm_compute; reflexivity|].
  destruct (senders_blocked_after_writeLoop (D := Demo.deps) Rev1
              [Ping "p"; ReadMessage None] s s') as (_ & Hcalls & _);
    [vm_compute; reflexivity..|].
  apply Hcalls. vm_compute; reflexivity.
Defined.

Lemma closeCh_send_blocked_for_ever_witness :
  let s := Demo.final Rev1 Demo.call_after_write_failure 5 in
  let s' := Demo.final Rev1 (Demo.call_after_write_failure ++
                             [Ping "p"; Call "echo" (Demo.data "3")]) 5 in
  closeCh s = [true] ∧ rl s = RL_closeCh_send ∧ rl s' = RL_closeCh_send.
Proof.
  intros s s'. split; [vm_compute; reflexivity|].
  split; [vm_compute; reflexivity|].
  destruct (closeCh_send_blocked_for_ever (D := Demo.deps) Rev1
              [Ping "p"; Call "echo" (Demo.data "3")] s s') as (_ & Hrl & _);
    [vm_compute; reflexivity| vm_compute; reflexivity
    | vm_compute; intros H; discriminate H |].
  apply Hrl. vm_compute; reflexivity.
Defined.

Lemma pendingCalls_are_the_live_calls_witness :
  let s := Demo.final Rev1 Demo.race 1 in
  pendingCalls s !! "call-1" = Some 1%nat ∧
  ∃ k pc, calls s !! k = Some pc ∧ call_reg pc = Some ("call-1", 1%nat) ∧
          in_table pc = true.
Proof.
  intros s. split; [vm_compute; reflexivity|].
  apply (pendingCalls_are_the_live_calls (D := Demo.deps) Rev1 Demo_uuid_inj
           1 "conn" Demo.race s "call-1" 1%nat); vm_compute; reflexivity.
Defined.

Lemma pendingCnt_counts_calls_witness :
  let s := Demo.final Rev1 Demo.race 1 in
  pendingCnt s = 2 ∧ in_flight (calls s) = 2%nat.
Proof.
  intros s. split; [vm_compute; reflexivity|].
  destruct (pendingCnt_counts_calls (D := Demo.deps) Rev1 Demo_uuid_inj
              1 "conn" Demo.race s) as [Hcnt _];
    [vm_compute; reflexivity..|].
  vm_compute; reflexivity.
Defined.

Lemma blocked_Call_keeps_its_entry_witness :
  let s' := Demo.final Rev1 Demo.call_after_write_failure 5 in
  pendingCalls s' !! "call-1" = Some 1%nat ∧ (1 ≤ in_flight (calls s'))%nat.
Proof.
  intros s'.
  destruct (blocked_Call_keeps_its_entry (D := Demo.deps) Rev1 Demo_uuid_inj
              5 "conn" (take 12 Demo.call_after_write_failure) [ReadMessage None]
              (Demo.final Rev1 (take 12 Demo.call_after_write_failure) 5) s' 1
              {| Id := "call-1"; Typ := Req; Action := "echo"; Data := Demo.B "2" |} 1
              (Demo.request "call-1" "echo" "2")) as (_ & Htab & Hcnt);
    [vm_compute; reflexivity..|].
  split; [exact Htab|exact Hcnt].
Defined.

Lemma pendingCnt_bounded_when_checks_do_not_overlap_witness :
  let s := Demo.final Rev1 Demo.one_at_a_time 1 in
  exclusive Rev1 Demo.one_at_a_time (makeClient 1 "conn") = true ∧
  pendingCnt s = 1 ∧ pendingCnt s ≤ int32 1.
Proof.
  intros s. split; [vm_compute; reflexivity|].
  split; [vm_compute; reflexivity|].
  apply (pendingCnt_bounded_when_checks_do_not_overlap (D := Demo.deps) Rev1
           Demo_uuid_inj 1 "conn" Demo.one_at_a_time s).
  - vm_compute. intros H; discriminate H.
  - vm_compute; reflexivity.
  - vm_compute; reflexivity.
Defined.

Lemma only_envelopes_pongs_and_close_frames_witness :
  let s := Demo.final Rev1 Demo.call_after_close 5 in
  ∃ m, Message_ToBytes (Deps := Demo.deps) m =
         Some (Demo.request "call-0" "echo" "1").
Proof.
  intros s.
  apply (only_envelopes_pongs_and_close_frames (D := Demo.deps) Rev1 5 "conn"
           Demo.call_after_close s
           (TextMessage (Demo.request "call-0" "echo" "1"), true)).
  - vm_compute; reflexivity.
  - assert (conn_writes s =
            [(CloseMessage CloseNormalClosure EmptyString, true);
             (TextMessage (Demo.request "call-0" "echo" "1"), true)]) as ->
      by (vm_compute; reflexivity).
    apply list_elem_of_further, list_elem_of_here.
Defined.

Lemma answered_Call_returns_the_response_witness :
  let s : State (D := Demo.deps) := Demo.final Rev1 [Call "A" (Demo.data "1")] 5 in
  ∃ s', run Rev1 [ Call_step 0; Call_step 0; Call_step 0; Call_messageOut 0;
                   WriteLoop_write true true true;
                   ReadMessage (Some (Demo.reply "call-0" "A" "ra"));
                   ReadLoop_callCh; Call_respCh 0; Call_step 0; Call_step 0 ] s
          = Some s' ∧
        calls s' !! 0%nat =
          Some (C_returned
                  {| Id := "call-0"; Typ := Req; Action := "A"; Data := Demo.B "1" |} 0
                  (inl {| Id := "call-0"; Typ := Resp; Action := "A";
                          Data := Demo.B "ra" |})) ∧
        pendingCalls s' = pendingCalls s ∧ pendingCnt s' = pendingCnt s.
Proof.
  intros s.
  destruct (answered_Call_returns_the_response (D := Demo.deps) Rev1 Demo_uuid_inj
              5 "conn" [Call "A" (Demo.data "1")] s 0 "A" (Demo.data "1")
              (Demo.B "1") (Demo.request "call-0" "A" "1")
              (Demo.reply "call-0" "A" "ra")
              {| Id := "call-0"; Typ := Resp; Action := "A"; Data := Demo.B "ra" |})
    as (s' & Hrun & Hk & Htab & Hcnt & _);
    [ vm_compute; reflexivity | vm_compute; reflexivity
    | vm_compute; intros Hle; exact (Hle eq_refl)
    | vm_compute; reflexivity.. |].
  exists s'. split; [exact Hrun|]. split; [exact Hk|].
  split; [exact Htab|exact Hcnt].
Defined.

Lemma served_request_is_answered_witness :
  ∃ s', run (D := Demo.deps) Rev1
          [ReadMessage (Some Demo.echo_request); ReadLoop_messageOut;
           WriteLoop_write true true true] (makeClient 5 "conn") = Some s' ∧
        conn_writes s' = [(TextMessage (Demo.reply "abc" "echo" "hi"), true)] ∧
        rl s' = RL_ReadMessage ∧ wl s' = WL_select.
Proof.
  destruct (served_request_is_answered (D := Demo.deps) Rev1 (makeClient 5 "conn")
              Demo.echo_request
              {| Id := "abc"; Typ := Req; Action := "echo"; Data := Demo.B "hi" |}
              (λ m, Some (Data m)) (Demo.B "hi") (Demo.reply "abc" "echo" "hi"))
    as (s' & Hrun & Hw & Hrl & Hwl & _);
    [vm_compute; reflexivity..|].
  exists s'. split; [exact Hrun|]. split; [exact Hw|]. split; [exact Hrl|exact Hwl].
Defined.

Lemma readLoop_close_reaches_the_transport_witness :
  ∃ s', run (D := Demo.deps) Rev2
          [ReadMessage None; ReadLoop_closeCh; ReadLoop_defer;
           WriteLoop_recv_closeCh; WriteLoop_closeFrame true]
          (makeClient 5 "conn") = Some s' ∧
        conn_writes s' = [(CloseMessage CloseNormalClosure EmptyString, true)] ∧
        removed s' = ["conn"] ∧ wl s' = WL_select.
Proof.
  destruct (readLoop_close_reaches_the_transport (D := Demo.deps) Rev2
              (makeClient 5 "conn") None true)
    as (s' & Hrun & Hw & Hrm & _ & Hwl & _);
    [reflexivity..|].
  exists s'. split; [exact Hrun|]. split; [exact Hw|]. split; [exact Hrm|exact Hwl].
Defined.

Lemma Call_returns_witness :
  call_outcome_ok (D := Demo.deps)
    (C_returned {| Id := "call-0"; Typ := Req; Action := "echo";
                   Data := Demo.B "{x:1}" |} 0 (inr ErrTimeout)).
Proof.
  apply (Call_returns (D := Demo.deps) Rev1 5 "conn" Demo.timed_out
           (Demo.final Rev1 Demo.timed_out 5) 0); vm_compute; reflexivity.
Defined.

Lemma no_room_rejects_every_Call_witness :
  let tr : list (Event (D := Demo.deps)) := [Call "A" (Demo.data "1"); Call_step 0] in
  let s := Demo.final Rev1 tr (2 ^ 32) in
  int32 (2 ^ 32) = 0 ∧
  calls s = [C_returned_early (inr ErrMaxPending)] ∧
  pendingCnt s = 0 ∧ pendingCalls s = ∅.
Proof.
  intros tr s. split; [vm_compute; reflexivity|].
  split; [vm_compute; reflexivity|].
  destruct (no_room_rejects_every_Call (D := Demo.deps) Rev1 (2 ^ 32) "conn" tr s)
    as (Hcnt & Htab & _).
  - vm_compute. intros H; discriminate H.
  - vm_compute; reflexivity.
  - split; [exact Hcnt|exact Htab].
Defined.

Lemma readLoop_wedged_by_unread_response_witness :
  let s := Demo.final Rev1 Demo.answered_twice 5 in
  let s' := Demo.final Rev1 (Demo.answered_twice ++
                             [Ping "p"; Call "echo" (Demo.data "2"); Call_step 1]) 5 in
  rl s' = RL_callCh_send 0
            {| Id := "call-0"; Typ := Resp; Action := "echo"; Data := Demo.B "two" |}.
Proof.
  intros s s'.
  destruct (readLoop_wedged_by_unread_response (D := Demo.deps) Rev1
              [Ping "p"; Call "echo" (Demo.data "2"); Call_step 1] s s' 0
              {| Id := "call-0"; Typ := Resp; Action := "echo"; Data := Demo.B "two" |}
              [{| Id := "call-0"; Typ := Resp; Action := "echo"; Data := Demo.B "one" |}])
    as [Hrl _].
  - vm_compute; reflexivity.
  - vm_compute; reflexivity.
  - vm_compute; reflexivity.
  - intros H; discriminate H.
  - intros k pc id' Hk _.
    assert (calls s =
            [C_returned {| Id := "call-0"; Typ := Req; Action := "echo";
                           Data := Demo.B "1" |} 0 (inr ErrTimeout)]) as Hc
      by (vm_compute; reflexivity).
    rewrite Hc in Hk. destruct k as [|k]; simpl in Hk.
    + injection Hk as <-. reflexivity.
    + destruct k; discriminate Hk.
  - exact Hrl.
Defined.
